(** * django-tmapi: the topic-map identity index and construct factories

    A shallow embedding of [tmapi/models/topic_map.py], [tmapi/models/topic.py]
    and [tmapi/models/association.py].  The Django models are rows of
    relational tables; a model instance is the record of its row; the
    database is threaded explicitly through every operation, and a Python
    exception is an outcome that keeps the database as it was when the
    exception was raised. *)

From Stdlib Require Import List String Arith Bool Lia.
Import ListNotations.

Set Implicit Arguments.

(** ** Exceptions and the database monad *)

(** The exceptions the three modules raise or let escape.  [Exception] is
    Python's base class raised with a message; [AttributeError] is what a
    method call on [None] raises. *)
Inductive exn : Type :=
| ModelConstraintException
| Topic_DoesNotExist
| Topic_MultipleObjectsReturned
| AttributeError
| Exception (msg : string).

Inductive outcome (A : Type) : Type :=
| Return (a : A)
| Raise (e : exn).

Arguments Return {A} a.
Arguments Raise {A} e.

(** Primary keys are the integers of an auto-incrementing column. *)
Definition pk := nat.

(** A table: its rows in insertion order and the next key of its sequence. *)
Record Table (A : Type) : Type := { rows : list A; next_pk : pk }.

Definition empty_table (A : Type) : Table A := {| rows := []; next_pk := 1 |}.

(** [Model(...).save()] on an instance without a key: INSERT. *)
Definition insert (A : Type) (mk : pk -> A) (t : Table A) : A * Table A :=
  let a := mk (next_pk t) in
  (a, {| rows := rows t ++ [a]; next_pk := S (next_pk t) |}).

(** [instance.save()] on an instance that has a key: UPDATE of that row. *)
Definition update (A : Type) (key : A -> pk) (a : A) (t : Table A) : Table A :=
  {| rows := map (fun r => if key r =? key a then a else r) (rows t);
     next_pk := next_pk t |}.

(** A many-to-many join table; [add] inserts a pair unless it is there. *)
Definition m2m := list (pk * pk).

Definition pair_eqb (x y : pk * pk) : bool :=
  (fst x =? fst y) && (snd x =? snd y).

Definition m2m_add (l : pk * pk) (j : m2m) : m2m :=
  if existsb (pair_eqb l) j then j else j ++ [l].

(** ** Model instances *)

(** Modelled from the spec: [tmapi/models/locator.py] is not among the
    sources.  A Locator is an immutable IRI string held in external form,
    and two locators are equal when these strings are. *)
Record Locator : Type := { address : string }.

Definition to_external_form (l : Locator) : string := address l.

(** Modelled from the spec: [tmapi/constants.py] is not among the sources;
    the two XML Schema datatype IRIs. *)
Definition XSD_ANY_URI : string := "http://www.w3.org/2001/XMLSchema#anyURI".
Definition XSD_STRING : string := "http://www.w3.org/2001/XMLSchema#string".

Record TopicMap : Type := { tm_id : pk; iri : string }.

Record Topic : Type := { topic_id : pk; topic_map : pk }.

Record ItemIdentifier : Type :=
  { ii_id : pk; ii_address : string; containing_topic_map : pk }.

Record SubjectIdentifier : Type :=
  { si_id : pk; si_topic : pk; si_address : string }.

Record SubjectLocator : Type :=
  { sl_id : pk; sl_topic : pk; sl_address : string }.

Record Association : Type :=
  { association_id : pk; association_type_id : pk;
    association_topic_map : pk }.

Record Role : Type :=
  { role_id : pk; role_association_id : pk; role_type_id : pk;
    role_player_id : pk; role_topic_map : pk }.

(** An occurrence value is a Python string or a [Locator]. *)
Inductive Value : Type :=
| StringValue (s : string)
| LocatorValue (l : Locator).

Record Occurrence : Type :=
  { occurrence_id : pk; occurrence_type_id : pk; occurrence_value : Value;
    occurrence_datatype : string; occurrence_topic : pk;
    occurrence_topic_map : pk }.

(** ** The database *)

Record DB : Type :=
  { topics : Table Topic;
    item_identifiers : Table ItemIdentifier;
    topic_item_identifiers : m2m;        (* Topic.item_identifiers *)
    association_item_identifiers : m2m;  (* Association.item_identifiers *)
    subject_identifiers : Table SubjectIdentifier;
    subject_locators : Table SubjectLocator;
    topic_types : m2m;                   (* Topic.types *)
    associations : Table Association;
    association_scope : m2m;             (* Association.scope *)
    roles : Table Role;
    occurrences : Table Occurrence }.

Definition empty_db : DB :=
  {| topics := empty_table _; item_identifiers := empty_table _;
     topic_item_identifiers := []; association_item_identifiers := [];
     subject_identifiers := empty_table _; subject_locators := empty_table _;
     topic_types := []; associations := empty_table _;
     association_scope := []; roles := empty_table _;
     occurrences := empty_table _ |}.

Definition set_topics (x : Table Topic) (db : DB) : DB :=
  {| topics := x; item_identifiers := item_identifiers db;
     topic_item_identifiers := topic_item_identifiers db;
     association_item_identifiers := association_item_identifiers db;
     subject_identifiers := subject_identifiers db;
     subject_locators := subject_locators db; topic_types := topic_types db;
     associations := associations db;
     association_scope := association_scope db; roles := roles db;
     occurrences := occurrences db |}.

Definition set_item_identifiers (x : Table ItemIdentifier) (db : DB) : DB :=
  {| topics := topics db; item_identifiers := x;
     topic_item_identifiers := topic_item_identifiers db;
     association_item_identifiers := association_item_identifiers db;
     subject_identifiers := subject_identifiers db;
     subject_locators := subject_locators db; topic_types := topic_types db;
     associations := associations db;
     association_scope := association_scope db; roles := roles db;
     occurrences := occurrences db |}.

Definition set_topic_item_identifiers (x : m2m) (db : DB) : DB :=
  {| topics := topics db; item_identifiers := item_identifiers db;
     topic_item_identifiers := x;
     association_item_identifiers := association_item_identifiers db;
     subject_identifiers := subject_identifiers db;
     subject_locators := subject_locators db; topic_types := topic_types db;
     associations := associations db;
     association_scope := association_scope db; roles := roles db;
     occurrences := occurrences db |}.

Definition set_association_item_identifiers (x : m2m) (db : DB) : DB :=
  {| topics := topics db; item_identifiers := item_identifiers db;
     topic_item_identifiers := topic_item_identifiers db;
     association_item_identifiers := x;
     subject_identifiers := subject_identifiers db;
     subject_locators := subject_locators db; topic_types := topic_types db;
     associations := associations db;
     association_scope := association_scope db; roles := roles db;
     occurrences := occurrences db |}.

Definition set_subject_identifiers (x : Table SubjectIdentifier) (db : DB)
  : DB :=
  {| topics := topics db; item_identifiers := item_identifiers db;
     topic_item_identifiers := topic_item_identifiers db;
     association_item_identifiers := association_item_identifiers db;
     subject_identifiers := x;
     subject_locators := subject_locators db; topic_types := topic_types db;
     associations := associations db;
     association_scope := association_scope db; roles := roles db;
     occurrences := occurrences db |}.

Definition set_subject_locators (x : Table SubjectLocator) (db : DB) : DB :=
  {| topics := topics db; item_identifiers := item_identifiers db;
     topic_item_identifiers := topic_item_identifiers db;
     association_item_identifiers := association_item_identifiers db;
     subject_identifiers := subject_identifiers db;
     subject_locators := x; topic_types := topic_types db;
     associations := associations db;
     association_scope := association_scope db; roles := roles db;
     occurrences := occurrences db |}.

Definition set_topic_types (x : m2m) (db : DB) : DB :=
  {| topics := topics db; item_identifiers := item_identifiers db;
     topic_item_identifiers := topic_item_identifiers db;
     association_item_identifiers := association_item_identifiers db;
     subject_identifiers := subject_identifiers db;
     subject_locators := subject_locators db; topic_types := x;
     associations := associations db;
     association_scope := association_scope db; roles := roles db;
     occurrences := occurrences db |}.

Definition set_associations (x : Table Association) (db : DB) : DB :=
  {| topics := topics db; item_identifiers := item_identifiers db;
     topic_item_identifiers := topic_item_identifiers db;
     association_item_identifiers := association_item_identifiers db;
     subject_identifiers := subject_identifiers db;
     subject_locators := subject_locators db; topic_types := topic_types db;
     associations := x;
     association_scope := association_scope db; roles := roles db;
     occurrences := occurrences db |}.

Definition set_association_scope (x : m2m) (db : DB) : DB :=
  {| topics := topics db; item_identifiers := item_identifiers db;
     topic_item_identifiers := topic_item_identifiers db;
     association_item_identifiers := association_item_identifiers db;
     subject_identifiers := subject_identifiers db;
     subject_locators := subject_locators db; topic_types := topic_types db;
     associations := associations db;
     association_scope := x; roles := roles db;
     occurrences := occurrences db |}.

Definition set_roles (x : Table Role) (db : DB) : DB :=
  {| topics := topics db; item_identifiers := item_identifiers db;
     topic_item_identifiers := topic_item_identifiers db;
     association_item_identifiers := association_item_identifiers db;
     subject_identifiers := subject_identifiers db;
     subject_locators := subject_locators db; topic_types := topic_types db;
     associations := associations db;
     association_scope := association_scope db; roles := x;
     occurrences := occurrences db |}.

Definition set_occurrences (x : Table Occurrence) (db : DB) : DB :=
  {| topics := topics db; item_identifiers := item_identifiers db;
     topic_item_identifiers := topic_item_identifiers db;
     association_item_identifiers := association_item_identifiers db;
     subject_identifiers := subject_identifiers db;
     subject_locators := subject_locators db; topic_types := topic_types db;
     associations := associations db;
     association_scope := association_scope db; roles := roles db;
     occurrences := x |}.

(** A method is a function from the database to an outcome and the
    database it leaves behind. *)
Definition M (A : Type) : Type := DB -> outcome A * DB.

Definition ret (A : Type) (a : A) : M A := fun db => (Return a, db).

Definition raise (A : Type) (e : exn) : M A := fun db => (Raise e, db).

Arguments raise {A} e.

Definition bind (A B : Type) (m : M A) (f : A -> M B) : M B :=
  fun db =>
    match m db with
    | (Return a, db') => f a db'
    | (Raise e, db') => (Raise e, db')
    end.

(** [try: body  except Topic.DoesNotExist: handler]; any other exception
    escapes. *)
Definition try_except_DoesNotExist (A : Type) (body handler : M A) : M A :=
  fun db =>
    match body db with
    | (Raise Topic_DoesNotExist, db') => handler db'
    | r => r
    end.

(** Reading the database. *)
Definition query (A : Type) (q : DB -> A) : M A := fun db => (Return (q db), db).

(** Writing the database. *)
Definition exec (f : DB -> DB) : M unit := fun db => (Return tt, f db).

Declare Scope db_scope.
Delimit Scope db_scope with db.
Notation "x <- m ;; k" := (bind m (fun x => k))
  (at level 61, m at next level, right associativity) : db_scope.
Notation "m ;; k" := (bind m (fun _ => k))
  (at level 61, right associativity) : db_scope.
Notation "'try' b 'except_DoesNotExist' h" := (try_except_DoesNotExist b h)
  (at level 61, b at next level, h at next level) : db_scope.

Local Open Scope db_scope.

(** ** Query sets *)

(** [QuerySet.get()]: the single row of the query, [DoesNotExist] when
    there is none and [MultipleObjectsReturned] when there are several. *)
Definition get (qs : list Topic) : M Topic :=
  match qs with
  | [] => raise Topic_DoesNotExist
  | [t] => ret t
  | _ :: _ :: _ => raise Topic_MultipleObjectsReturned
  end.

(** [self.topic_constructs]: the topics whose [topic_map] is [self]. *)
Definition topic_constructs (self : TopicMap) (db : DB) : list Topic :=
  filter (fun t => topic_map t =? tm_id self) (rows (topics db)).

(** [qs.filter(subject_identifiers__address=reference)]: the join of [qs]
    with the subject identifier rows at that address, one result row per
    matching pair. *)
Definition filter_subject_identifiers__address
  (reference : string) (qs : list Topic) (db : DB) : list Topic :=
  flat_map (fun si => filter (fun t => topic_id t =? si_topic si) qs)
    (filter (fun si => String.eqb (si_address si) reference)
       (rows (subject_identifiers db))).

(** [qs.filter(subject_locators__address=reference)]. *)
Definition filter_subject_locators__address
  (reference : string) (qs : list Topic) (db : DB) : list Topic :=
  flat_map (fun sl => filter (fun t => topic_id t =? sl_topic sl) qs)
    (filter (fun sl => String.eqb (sl_address sl) reference)
       (rows (subject_locators db))).

(** [qs.filter(item_identifiers__address=reference)]: the join of [qs]
    with the item identifier rows at that address through the
    many-to-many table of [Topic.item_identifiers]. *)
Definition filter_item_identifiers__address
  (reference : string) (qs : list Topic) (db : DB) : list Topic :=
  flat_map
    (fun ii =>
       flat_map (fun l => filter (fun t => topic_id t =? fst l) qs)
         (filter (fun l => snd l =? ii_id ii) (topic_item_identifiers db)))
    (filter (fun ii => String.eqb (ii_address ii) reference)
       (rows (item_identifiers db))).

(** The rows the three lookups of a topic map read. *)
Local Abbreviation si_rows self reference db :=
  (filter_subject_identifiers__address reference (topic_constructs self db) db).
Local Abbreviation ii_rows self reference db :=
  (filter_item_identifiers__address reference (topic_constructs self db) db).
Local Abbreviation sl_rows self reference db :=
  (filter_subject_locators__address reference (topic_constructs self db) db).

(** ** Saving instances and related managers *)

Definition save_topic (mk : pk -> Topic) : M Topic :=
  fun db =>
    let (t, tbl) := insert mk (topics db) in (Return t, set_topics tbl db).

Definition save_item_identifier (mk : pk -> ItemIdentifier)
  : M ItemIdentifier :=
  fun db =>
    let (i, tbl) := insert mk (item_identifiers db) in
    (Return i, set_item_identifiers tbl db).

Definition save_subject_identifier (mk : pk -> SubjectIdentifier)
  : M SubjectIdentifier :=
  fun db =>
    let (i, tbl) := insert mk (subject_identifiers db) in
    (Return i, set_subject_identifiers tbl db).

Definition save_subject_locator (mk : pk -> SubjectLocator)
  : M SubjectLocator :=
  fun db =>
    let (i, tbl) := insert mk (subject_locators db) in
    (Return i, set_subject_locators tbl db).

Definition save_association (mk : pk -> Association) : M Association :=
  fun db =>
    let (a, tbl) := insert mk (associations db) in
    (Return a, set_associations tbl db).

Definition save_role (mk : pk -> Role) : M Role :=
  fun db =>
    let (r, tbl) := insert mk (roles db) in (Return r, set_roles tbl db).

(** Modelled from the spec: the value column of an occurrence holds text,
    and the text of a [Locator] is its IRI string ([locator.py] is not
    among the sources).  A string is stored as it is. *)
Definition value_column (value : Value) : Value :=
  match value with
  | StringValue s => StringValue s
  | LocatorValue l => StringValue (address l)
  end.

(** The row the database keeps of an occurrence instance. *)
Definition occurrence_row (o : Occurrence) : Occurrence :=
  {| occurrence_id := occurrence_id o;
     occurrence_type_id := occurrence_type_id o;
     occurrence_value := value_column (occurrence_value o);
     occurrence_datatype := occurrence_datatype o;
     occurrence_topic := occurrence_topic o;
     occurrence_topic_map := occurrence_topic_map o |}.

(** [row] is what the database keeps of the instance [o]: the same key,
    type, datatype, topic and topic map, and a text value, which is the
    instance's own value when that is a string. *)
Definition stored_as (o row : Occurrence) : Prop :=
  occurrence_id row = occurrence_id o /\
  occurrence_type_id row = occurrence_type_id o /\
  occurrence_datatype row = occurrence_datatype o /\
  occurrence_topic row = occurrence_topic o /\
  occurrence_topic_map row = occurrence_topic_map o /\
  (exists s, occurrence_value row = StringValue s) /\
  (forall s, occurrence_value o = StringValue s -> row = o).

(** [occurrence.save()]: the row is inserted; the instance in memory gets
    its key and keeps the value it was made with. *)
Definition save_occurrence (mk : pk -> Occurrence) : M Occurrence :=
  fun db =>
    let (row, tbl) :=
      insert (fun id => occurrence_row (mk id)) (occurrences db) in
    (Return (mk (occurrence_id row)), set_occurrences tbl db).

(** [topic.item_identifiers.add(ii)]: a row of the many-to-many table. *)
Definition item_identifiers_add (topic : Topic) (ii : ItemIdentifier)
  : M unit :=
  exec (fun db =>
          set_topic_item_identifiers
            (m2m_add (topic_id topic, ii_id ii) (topic_item_identifiers db))
            db).

(** [topic.subject_identifiers.add(si)]: the reverse side of the foreign
    key [SubjectIdentifier.topic]; it points [si] at [topic] and saves
    [si] again. *)
Definition subject_identifiers_add (topic : Topic) (si : SubjectIdentifier)
  : M unit :=
  exec (fun db =>
          set_subject_identifiers
            (update si_id
               {| si_id := si_id si; si_topic := topic_id topic;
                  si_address := si_address si |}
               (subject_identifiers db))
            db).

(** [topic.subject_locators.add(sl)], as for subject identifiers. *)
Definition subject_locators_add (topic : Topic) (sl : SubjectLocator)
  : M unit :=
  exec (fun db =>
          set_subject_locators
            (update sl_id
               {| sl_id := sl_id sl; sl_topic := topic_id topic;
                  sl_address := sl_address sl |}
               (subject_locators db))
            db).

(** ** TopicMap *)

(** [for topic in scope: association.scope.add(topic)]. *)
Fixpoint scope_add_all (association : Association) (scope : list Topic)
  : M unit :=
  match scope with
  | [] => ret tt
  | topic :: rest =>
      exec (fun db =>
              set_association_scope
                (m2m_add (association_id association, topic_id topic)
                   (association_scope db)) db) ;;
      scope_add_all association rest
  end.

Definition create_association (self : TopicMap)
  (association_type : option Topic) (scope : option (list Topic))
  : M Association :=
  match association_type with
  | None => raise ModelConstraintException
  | Some association_type =>
      association <- save_association
        (fun id => {| association_id := id;
                      association_type_id := topic_id association_type;
                      association_topic_map := tm_id self |}) ;;
      let scope := match scope with None => [] | Some s => s end in
      scope_add_all association scope ;;
      ret association
  end.

Definition create_locator (self : TopicMap) (reference : string) : Locator :=
  {| address := reference |}.

Definition create_topic (self : TopicMap) : M Topic :=
  topic <- save_topic
    (fun id => {| topic_id := id; topic_map := tm_id self |}) ;;
  ret topic.

Definition create_topic_by_item_identifier (self : TopicMap)
  (item_identifier : option Locator) : M Topic :=
  match item_identifier with
  | None => raise ModelConstraintException
  | Some item_identifier =>
      let reference := to_external_form item_identifier in
      try (qs <- query (fun db =>
                   filter_item_identifiers__address reference
                     (topic_constructs self db) db) ;;
           get qs)
      except_DoesNotExist
        (topic <-
           (try (qs <- query (fun db =>
                         filter_subject_identifiers__address reference
                           (topic_constructs self db) db) ;;
                 get qs)
            except_DoesNotExist
              (save_topic
                 (fun id => {| topic_id := id; topic_map := tm_id self |}))) ;;
         ii <- save_item_identifier
           (fun id => {| ii_id := id; ii_address := reference;
                         containing_topic_map := tm_id self |}) ;;
         item_identifiers_add topic ii ;;
         ret topic)
  end.

Definition create_topic_by_subject_identifier (self : TopicMap)
  (subject_identifier : option Locator) : M Topic :=
  match subject_identifier with
  | None => raise ModelConstraintException
  | Some subject_identifier =>
      let reference := to_external_form subject_identifier in
      try (qs <- query (fun db =>
                   filter_subject_identifiers__address reference
                     (topic_constructs self db) db) ;;
           get qs)
      except_DoesNotExist
        (topic <-
           (try (qs <- query (fun db =>
                         filter_item_identifiers__address reference
                           (topic_constructs self db) db) ;;
                 get qs)
            except_DoesNotExist
              (save_topic
                 (fun id => {| topic_id := id; topic_map := tm_id self |}))) ;;
         si <- save_subject_identifier
           (fun id => {| si_id := id; si_topic := topic_id topic;
                         si_address := reference |}) ;;
         subject_identifiers_add topic si ;;
         ret topic)
  end.

Definition create_topic_by_subject_locator (self : TopicMap)
  (subject_locator : option Locator) : M Topic :=
  match subject_locator with
  | None => raise ModelConstraintException
  | Some subject_locator =>
      let reference := to_external_form subject_locator in
      try (qs <- query (fun db =>
                   filter_subject_locators__address reference
                     (topic_constructs self db) db) ;;
           get qs)
      except_DoesNotExist
        (topic <- save_topic
           (fun id => {| topic_id := id; topic_map := tm_id self |}) ;;
         sl <- save_subject_locator
           (fun id => {| sl_id := id; sl_topic := topic_id topic;
                         sl_address := reference |}) ;;
         subject_locators_add topic sl ;;
         ret topic)
  end.


(** [get_topic_by_subject_identifier]: [None] where [get] finds nothing.
    The method has no guard on its argument:
    [subject_identifier.to_external_form()] on [None] raises, outside the
    [try]. *)
Definition get_topic_by_subject_identifier (self : TopicMap)
  (subject_identifier : option Locator) : M (option Topic) :=
  match subject_identifier with
  | None => raise AttributeError
  | Some subject_identifier =>
      let reference := to_external_form subject_identifier in
      try (qs <- query (fun db =>
                   filter_subject_identifiers__address reference
                     (topic_constructs self db) db) ;;
           topic <- get qs ;;
           ret (Some topic))
      except_DoesNotExist (ret None)
  end.

(** [get_topic_by_subject_locator], with no guard on its argument
    either. *)
Definition get_topic_by_subject_locator (self : TopicMap)
  (subject_locator : option Locator) : M (option Topic) :=
  match subject_locator with
  | None => raise AttributeError
  | Some subject_locator =>
      let reference := to_external_form subject_locator in
      try (qs <- query (fun db =>
                   filter_subject_locators__address reference
                     (topic_constructs self db) db) ;;
           topic <- get qs ;;
           ret (Some topic))
      except_DoesNotExist (ret None)
  end.

(** ** Topic *)

(** [Topic.add_type].  [!=] on model instances compares primary keys; the
    instances compared are the two topic maps. *)
Definition add_type (self type : Topic) : M unit :=
  if negb (topic_map self =? topic_map type) then
    raise ModelConstraintException
  else
    exec (fun db =>
            set_topic_types
              (m2m_add (topic_id self, topic_id type) (topic_types db)) db).

(** [Topic.get_types]: [self.types.all()]. *)
Definition get_types (self : Topic) (db : DB) : list Topic :=
  flat_map (fun l => filter (fun t => topic_id t =? snd l) (rows (topics db)))
    (filter (fun l => fst l =? topic_id self) (topic_types db)).

(** [Topic.create_occurrence].  The [scope] argument is accepted and not
    used by the body. *)
Definition create_occurrence (self type : Topic) (value : Value)
  (scope : option (list Topic)) (datatype : option Locator) : M Occurrence :=
  let datatype :=
    match datatype with
    | None =>
        match value with
        | LocatorValue _ => {| address := XSD_ANY_URI |}
        | StringValue _ => {| address := XSD_STRING |}
        end
    | Some datatype => datatype
    end in
  occurrence <- save_occurrence
    (fun id => {| occurrence_id := id; occurrence_type_id := topic_id type;
                  occurrence_value := value;
                  occurrence_datatype := to_external_form datatype;
                  occurrence_topic := topic_id self;
                  occurrence_topic_map := topic_map self |}) ;;
  ret occurrence.

(** [Topic.get_occurrences]. *)
Definition get_occurrences (self : Topic) (occurrence_type : option Topic)
  (db : DB) : list Occurrence :=
  let all := filter (fun o => occurrence_topic o =? topic_id self)
               (rows (occurrences db)) in
  match occurrence_type with
  | None => all
  | Some occurrence_type =>
      filter (fun o => occurrence_type_id o =? topic_id occurrence_type) all
  end.

(** [self.role_players]: the roles whose player is [self]. *)
Definition role_players (self : Topic) (db : DB) : list Role :=
  filter (fun r => role_player_id r =? topic_id self) (rows (roles db)).

(** [qs.filter(...)] with keyword conditions: the rows that meet every
    condition given; with none given, every row. *)
Definition qs_filter (conditions : list (Role -> bool)) (qs : list Role)
  : list Role :=
  filter (fun r => forallb (fun c => c r) conditions) qs.

(** [Topic.get_roles_played]. *)
Definition get_roles_played (self : Topic)
  (role_type association_type : option Topic) : M (list Role) :=
  match role_type with
  | Some role_type =>
      roles <- query (fun db =>
                 qs_filter [fun r => role_type_id r =? topic_id role_type]
                   (role_players self db)) ;;
      match association_type with
      | Some _ => ret (qs_filter [] roles)
      | None => ret roles
      end
  | None =>
      match association_type with
      | Some _ =>
          raise (Exception "This is a broken call to get_roles_played, specifying an assocation type but not a role type")
      | None => query (fun db => role_players self db)
      end
  end.

(** [Topic.get_subject_identifiers]: [self.subject_identifiers.all()]. *)
Definition get_subject_identifiers (self : Topic) (db : DB)
  : list SubjectIdentifier :=
  filter (fun si => si_topic si =? topic_id self)
    (rows (subject_identifiers db)).

(** [Topic.get_subject_locators]: [self.subject_locators.all()]. *)
Definition get_subject_locators (self : Topic) (db : DB)
  : list SubjectLocator :=
  filter (fun sl => sl_topic sl =? topic_id self)
    (rows (subject_locators db)).

(** [self.item_identifiers.all()], the manager [create_topic_by_item_identifier]
    adds to. *)
Definition get_item_identifiers (self : Topic) (db : DB)
  : list ItemIdentifier :=
  flat_map (fun l => filter (fun ii => ii_id ii =? snd l)
                       (rows (item_identifiers db)))
    (filter (fun l => fst l =? topic_id self) (topic_item_identifiers db)).

(** ** Association *)

(** [Association.create_role]. *)
Definition create_role (self : Association) (role_type player : option Topic)
  : M Role :=
  match role_type, player with
  | Some role_type, Some player =>
      role <- save_role
        (fun id => {| role_id := id; role_association_id := association_id self;
                      role_type_id := topic_id role_type;
                      role_player_id := topic_id player;
                      role_topic_map := association_topic_map self |}) ;;
      ret role
  | _, _ => raise ModelConstraintException
  end.

(** [Association.get_roles]. *)
Definition get_roles (self : Association) (role_type : option Topic) (db : DB)
  : list Role :=
  let all := filter (fun r => role_association_id r =? association_id self)
               (rows (roles db)) in
  match role_type with
  | None => all
  | Some role_type =>
      filter (fun r => role_type_id r =? topic_id role_type) all
  end.

(** [association.item_identifiers.all()]: every construct kind carries the
    many-to-many field of [ConstructFields]. *)
Definition association_get_item_identifiers (self : Association) (db : DB)
  : list ItemIdentifier :=
  flat_map (fun l => filter (fun ii => ii_id ii =? snd l)
                       (rows (item_identifiers db)))
    (filter (fun l => fst l =? association_id self)
       (association_item_identifiers db)).

(** ** Ownership and the identity-index invariants *)

(** [t] is a topic of the topic map [self]. *)
Definition topic_of (self : TopicMap) (db : DB) (t : Topic) : Prop :=
  In t (rows (topics db)) /\ topic_map t = tm_id self.

(** [t] owns [reference] as a subject identifier. *)
Definition owns_subject_identifier (db : DB) (t : Topic) (reference : string)
  : Prop :=
  exists si, In si (rows (subject_identifiers db)) /\
             si_topic si = topic_id t /\ si_address si = reference.

(** [t] owns [reference] as a subject locator. *)
Definition owns_subject_locator (db : DB) (t : Topic) (reference : string)
  : Prop :=
  exists sl, In sl (rows (subject_locators db)) /\
             sl_topic sl = topic_id t /\ sl_address sl = reference.

(** [t] owns [reference] as an item identifier. *)
Definition owns_item_identifier (db : DB) (t : Topic) (reference : string)
  : Prop :=
  exists ii, In ii (rows (item_identifiers db)) /\
             ii_address ii = reference /\
             In (topic_id t, ii_id ii) (topic_item_identifiers db).

(** The association [a] owns [reference] as an item identifier. *)
Definition association_owns_item_identifier (db : DB) (a : Association)
  (reference : string) : Prop :=
  exists ii, In ii (rows (item_identifiers db)) /\
             ii_address ii = reference /\
             In (association_id a, ii_id ii) (association_item_identifiers db).

(** Keys and foreign keys as the database keeps them: topic keys are
    unique, every key in a table is below the table's sequence, and every
    foreign key names a row that exists. *)
Record integrity (db : DB) : Prop :=
  { topic_pk_unique : NoDup (map topic_id (rows (topics db)));
    topic_pk_bound :
      forall t, In t (rows (topics db)) -> topic_id t < next_pk (topics db);
    si_pk_bound :
      forall si, In si (rows (subject_identifiers db)) ->
                 si_id si < next_pk (subject_identifiers db);
    si_fk :
      forall si, In si (rows (subject_identifiers db)) ->
                 exists t, In t (rows (topics db)) /\ topic_id t = si_topic si;
    sl_pk_bound :
      forall sl, In sl (rows (subject_locators db)) ->
                 sl_id sl < next_pk (subject_locators db);
    sl_fk :
      forall sl, In sl (rows (subject_locators db)) ->
                 exists t, In t (rows (topics db)) /\ topic_id t = sl_topic sl;
    ii_pk_bound :
      forall ii, In ii (rows (item_identifiers db)) ->
                 ii_id ii < next_pk (item_identifiers db);
    tii_fk :
      forall l, In l (topic_item_identifiers db) ->
                (exists t, In t (rows (topics db)) /\ topic_id t = fst l) /\
                (exists ii, In ii (rows (item_identifiers db)) /\
                            ii_id ii = snd l) }.

(** The uniqueness the identity index keeps per topic map: a lookup by
    subject identifier, by item identifier or by subject locator has at most
    one row. *)
Definition unique_identifiers (db : DB) : Prop :=
  forall (self : TopicMap) (reference : string),
    List.length (filter_subject_identifiers__address reference
              (topic_constructs self db) db) <= 1 /\
    List.length (filter_item_identifiers__address reference
              (topic_constructs self db) db) <= 1 /\
    List.length (filter_subject_locators__address reference
              (topic_constructs self db) db) <= 1.

(** A subject identifier and an item identifier at one address denote one
    subject: they are on one topic. *)
Definition coherent (db : DB) : Prop :=
  forall (self : TopicMap) (reference : string) (t1 t2 : Topic),
    topic_of self db t1 -> owns_subject_identifier db t1 reference ->
    topic_of self db t2 -> owns_item_identifier db t2 reference ->
    t1 = t2.

Definition wf (db : DB) : Prop := integrity db /\ unique_identifiers db.

(** ** The database after each write *)

(** The topic [Topic(topic_map=self).save()] inserts. *)
Definition new_topic (self : TopicMap) (db : DB) : Topic :=
  {| topic_id := next_pk (topics db); topic_map := tm_id self |}.

Definition add_topic (self : TopicMap) (db : DB) : DB :=
  set_topics
    {| rows := rows (topics db) ++ [new_topic self db];
       next_pk := S (next_pk (topics db)) |} db.

(** [reference] bound to [t] as a subject identifier. *)
Definition bind_subject_identifier (t : Topic) (reference : string) (db : DB)
  : DB :=
  set_subject_identifiers
    {| rows := rows (subject_identifiers db) ++
               [{| si_id := next_pk (subject_identifiers db);
                   si_topic := topic_id t; si_address := reference |}];
       next_pk := S (next_pk (subject_identifiers db)) |} db.

(** [reference] bound to [t] as a subject locator. *)
Definition bind_subject_locator (t : Topic) (reference : string) (db : DB)
  : DB :=
  set_subject_locators
    {| rows := rows (subject_locators db) ++
               [{| sl_id := next_pk (subject_locators db);
                   sl_topic := topic_id t; sl_address := reference |}];
       next_pk := S (next_pk (subject_locators db)) |} db.

(** [reference] bound to [t] as an item identifier of the map [self]. *)
Definition bind_item_identifier (self : TopicMap) (t : Topic)
  (reference : string) (db : DB) : DB :=
  set_topic_item_identifiers
    (topic_item_identifiers db ++
       [(topic_id t, next_pk (item_identifiers db))])
    (set_item_identifiers
       {| rows := rows (item_identifiers db) ++
                  [{| ii_id := next_pk (item_identifiers db);
                      ii_address := reference;
                      containing_topic_map := tm_id self |}];
          next_pk := S (next_pk (item_identifiers db)) |} db).

(** Two databases with the same topics and the same identifier tables. *)
Definition same_index (db db' : DB) : Prop :=
  topics db' = topics db /\
  item_identifiers db' = item_identifiers db /\
  topic_item_identifiers db' = topic_item_identifiers db /\
  subject_identifiers db' = subject_identifiers db /\
  subject_locators db' = subject_locators db.

(** ** The topic maps the factories build *)

(** The databases reached from the empty one by the methods above. *)
Inductive reachable : DB -> Prop :=
| reach_empty : reachable empty_db
| reach_create_topic (self : TopicMap) (db : DB) :
    reachable db -> reachable (snd (create_topic self db))
| reach_by_item_identifier (self : TopicMap) (loc : option Locator) (db : DB) :
    reachable db ->
    reachable (snd (create_topic_by_item_identifier self loc db))
| reach_by_subject_identifier (self : TopicMap) (loc : option Locator)
    (db : DB) :
    reachable db ->
    reachable (snd (create_topic_by_subject_identifier self loc db))
| reach_by_subject_locator (self : TopicMap) (loc : option Locator) (db : DB) :
    reachable db ->
    reachable (snd (create_topic_by_subject_locator self loc db))
| reach_create_association (self : TopicMap) (type : option Topic)
    (scope : option (list Topic)) (db : DB) :
    reachable db -> reachable (snd (create_association self type scope db))
| reach_add_type (self type : Topic) (db : DB) :
    reachable db -> reachable (snd (add_type self type db))
| reach_create_occurrence (self type : Topic) (value : Value)
    (scope : option (list Topic)) (datatype : option Locator) (db : DB) :
    reachable db ->
    reachable (snd (create_occurrence self type value scope datatype db))
| reach_create_role (self : Association) (role_type player : option Topic)
    (db : DB) :
    reachable db -> reachable (snd (create_role self role_type player db)).

(** ** Sample data *)

Definition ex_tm : TopicMap :=
  {| tm_id := 1; iri := "http://www.example.org/tm/" |}.

Definition ex_loc : Locator := {| address := "http://www.example.org/subject" |}.

Definition ex_topic (id map : pk) : Topic :=
  {| topic_id := id; topic_map := map |}.

(** A topic map with one topic, made by item identifier. *)
Definition ex_db_ii : DB :=
  snd (create_topic_by_item_identifier ex_tm (Some ex_loc) empty_db).

(** A topic map with an association type, an association of that type, and
    [ex_loc] as an item identifier of the association. *)
Definition ex_association : Association :=
  {| association_id := 1; association_type_id := 1;
     association_topic_map := 1 |}.

Definition ex_db_association : DB :=
  let db1 := snd (create_topic ex_tm empty_db) in
  let db2 := snd (create_association ex_tm (Some (ex_topic 1 1)) None db1) in
  set_association_item_identifiers [(1, 1)]
    (set_item_identifiers
       {| rows := [{| ii_id := 1; ii_address := to_external_form ex_loc;
                      containing_topic_map := 1 |}];
          next_pk := 2 |} db2).

(** A store in which two topics of one map split an address: topic 1 has it
    as a subject identifier and topic 2 as an item identifier. *)
Definition ex_db_split : DB :=
  let db1 := snd (create_topic ex_tm empty_db) in
  let db2 := snd (create_topic ex_tm db1) in
  bind_item_identifier ex_tm (ex_topic 2 1) (to_external_form ex_loc)
    (bind_subject_identifier (ex_topic 1 1) (to_external_form ex_loc) db2).

(** A store in which two topics of one map carry one subject identifier. *)
Definition ex_db_duplicate : DB :=
  let db1 := snd (create_topic ex_tm empty_db) in
  let db2 := snd (create_topic ex_tm db1) in
  bind_subject_identifier (ex_topic 2 1) (to_external_form ex_loc)
    (bind_subject_identifier (ex_topic 1 1) (to_external_form ex_loc) db2).

(** A topic that plays two roles of one type in associations of two types. *)
Definition ex_db_roles : DB :=
  set_roles
    {| rows := [{| role_id := 1; role_association_id := 1; role_type_id := 3;
                   role_player_id := 5; role_topic_map := 1 |};
                {| role_id := 2; role_association_id := 2; role_type_id := 3;
                   role_player_id := 5; role_topic_map := 1 |}];
       next_pk := 3 |}
    (set_associations
       {| rows := [{| association_id := 1; association_type_id := 7;
                      association_topic_map := 1 |};
                   {| association_id := 2; association_type_id := 8;
                      association_topic_map := 1 |}];
          next_pk := 3 |} empty_db).

(** ** The remaining methods of the three modules *)

(** [TopicMap.get_associations]: [self.association_constructs.all()]. *)
Definition get_associations (self : TopicMap) (db : DB) : list Association :=
  filter (fun a => association_topic_map a =? tm_id self)
    (rows (associations db)).

(** [manager.remove(obj)] on a many-to-many field: the pair is deleted. *)
Definition m2m_remove (l : pk * pk) (j : m2m) : m2m :=
  filter (fun x => negb (pair_eqb l x)) j.

(** [Topic.remove_type]: [self.types.remove(topic_type)]. *)
Definition remove_type (self topic_type : Topic) : M unit :=
  exec (fun db =>
          set_topic_types
            (m2m_remove (topic_id self, topic_id topic_type) (topic_types db))
            db).

(** [Topic.add_subject_identifier] and [Topic.add_subject_locator] are not
    written yet: they raise. *)
Definition add_subject_identifier (self : Topic) (subject_identifier : Locator)
  : M unit :=
  raise (Exception "Not yet implemented").

Definition add_subject_locator (self : Topic) (subject_locator : Locator)
  : M unit :=
  raise (Exception "Not yet implemented").

(** [Association.get_role_types]:
    [Topic.objects.filter(typed_roles__association=self).distinct()], the
    join of all topics with the roles of the association on the role type,
    without repeated rows. *)
Definition Topic_eq_dec (x y : Topic) : {x = y} + {x <> y}.
Proof. decide equality; apply Nat.eq_dec. Defined.

Definition get_role_types (self : Association) (db : DB) : list Topic :=
  nodup Topic_eq_dec
    (flat_map
       (fun r => filter (fun t => topic_id t =? role_type_id r)
                   (rows (topics db)))
       (filter (fun r => role_association_id r =? association_id self)
          (rows (roles db)))).

(** [Topic.get_reified].  The six attributes are reverse relations declared
    outside the three modules; [getattr] is the outcome of reading one of
    them on [self].  The loop stops at the first attribute that can be read
    and passes over every exception. *)
Definition reifiable_types : list string :=
  ["reified_association"; "reified_name"; "reified_occurrence";
   "reified_role"; "reified_topicmap"; "reified_variant"]%string.

Fixpoint first_readable (C : Type) (getattr : string -> outcome C)
  (names : list string) : option C :=
  match names with
  | [] => None
  | reifiable_type :: rest =>
      match getattr reifiable_type with
      | Return reified => Some reified
      | Raise _ => first_readable getattr rest
      end
  end.

Definition get_reified (C : Type) (getattr : string -> outcome C) : option C :=
  first_readable getattr reifiable_types.

(** One database extends another: every topic and every identifier binding
    of the first is in the second. *)
Definition extends (db db' : DB) : Prop :=
  (forall t, In t (rows (topics db)) -> In t (rows (topics db'))) /\
  (forall t r, owns_subject_identifier db t r ->
               owns_subject_identifier db' t r) /\
  (forall t r, owns_item_identifier db t r -> owns_item_identifier db' t r) /\
  (forall t r, owns_subject_locator db t r -> owns_subject_locator db' t r).


(** The writes a topic factory of the map [self] makes: none, an identifier
    bound to a topic of the map, a topic inserted, or a topic inserted and
    an identifier bound to it. *)
Inductive factory_step (self : TopicMap) (db : DB) : DB -> Prop :=
| step_none : factory_step self db db
| step_bind_si (t : Topic) (reference : string) :
    topic_of self db t ->
    factory_step self db (bind_subject_identifier t reference db)
| step_bind_ii (t : Topic) (reference : string) :
    topic_of self db t ->
    factory_step self db (bind_item_identifier self t reference db)
| step_new : factory_step self db (add_topic self db)
| step_new_si (reference : string) :
    factory_step self db
      (bind_subject_identifier (new_topic self db) reference
         (add_topic self db))
| step_new_ii (reference : string) :
    factory_step self db
      (bind_item_identifier self (new_topic self db) reference
         (add_topic self db))
| step_new_sl (reference : string) :
    factory_step self db
      (bind_subject_locator (new_topic self db) reference
         (add_topic self db)).

(** ** Names *)

(** A row of [Name], with the fields [Topic.create_name] gives it. *)
Record Name : Type :=
  { name_id : pk; name_topic : pk; name_value : string; name_topic_map : pk;
    name_type_id : pk }.

(** The database together with the names and their scope. *)
Record Store : Type :=
  { store_db : DB; names : Table Name; name_scope : m2m }.

Definition with_db (db : DB) (s : Store) : Store :=
  {| store_db := db; names := names s; name_scope := name_scope s |}.

(** The subject identifier of the default name type. *)
Definition topic_name_psi : string :=
  "http://psi.topicmaps.org/iso13250/model/topic-name".

(** [for theme in scope: name.scope.add(theme)]. *)
Fixpoint name_scope_add_all (name : Name) (scope : list Topic) (j : m2m)
  : m2m :=
  match scope with
  | [] => j
  | theme :: rest =>
      name_scope_add_all name rest (m2m_add (name_id name, topic_id theme) j)
  end.

(** [Topic.create_name].  A topic row holds the key of its topic map only;
    [self_topic_map] stands for the instance [self.topic_map], the topic
    map whose key is [topic_map self], and what is proved of a call that
    reads it assumes [tm_id self_topic_map = topic_map self]. *)
Definition create_name (self : Topic) (self_topic_map : TopicMap)
  (value : string) (type : option Topic) (scope : option (list Topic))
  (s : Store) : outcome Name * Store :=
  let (r, db1) :=
    match type with
    | None =>
        create_topic_by_subject_identifier self_topic_map
          (Some {| address := topic_name_psi |}) (store_db s)
    | Some type => (Return type, store_db s)
    end in
  match r with
  | Raise e => (Raise e, with_db db1 s)
  | Return type =>
      let (name, tbl) :=
        insert (fun id => {| name_id := id; name_topic := topic_id self;
                             name_value := value;
                             name_topic_map := tm_id self_topic_map;
                             name_type_id := topic_id type |}) (names s) in
      (Return name,
       {| store_db := db1; names := tbl;
          name_scope :=
            match scope with
            | None => name_scope s
            | Some scope => name_scope_add_all name scope (name_scope s)
            end |})
  end.

(** [Topic.get_names]. *)
Definition get_names (self : Topic) (name_type : option Topic) (s : Store)
  : list Name :=
  let all := filter (fun n => name_topic n =? topic_id self)
               (rows (names s)) in
  match name_type with
  | None => all
  | Some name_type =>
      filter (fun n => name_type_id n =? topic_id name_type) all
  end.

(** Every name is the name of a stored topic. *)
Definition names_fk (s : Store) : Prop :=
  forall n, In n (rows (names s)) ->
            exists t, In t (rows (topics (store_db s))) /\
                      topic_id t = name_topic n.

(** [t] owns [reference] as an identifier of some kind. *)
Definition owns_address (db : DB) (t : Topic) (reference : string) : Prop :=
  owns_subject_identifier db t reference \/
  owns_item_identifier db t reference \/
  owns_subject_locator db t reference.

(** Every topic has its identifiers at one address. *)
Definition single_address (db : DB) : Prop :=
  forall (t : Topic) (r1 r2 : string),
    owns_address db t r1 -> owns_address db t r2 -> r1 = r2.

(** * Verification *)

(** ** Rows of lists *)

Section ListFacts.

Variable A : Type.

Lemma filter_none (p : A -> bool) (l : list A) :
  (forall x, In x l -> p x = false) -> filter p l = [].
Proof.
  induction l as [|a l IH]; intros H; simpl; [reflexivity|].
  rewrite (H a (or_introl eq_refl)).
  apply IH. intros x Hx. apply H. right. exact Hx.
Qed.

Lemma flat_map_none (B : Type) (f : A -> list B) (l : list A) :
  (forall x, In x l -> f x = []) -> flat_map f l = [].
Proof.
  induction l as [|a l IH]; intros H; simpl; [reflexivity|].
  rewrite (H a (or_introl eq_refl)). simpl.
  apply IH. intros x Hx. apply H. right. exact Hx.
Qed.

Lemma flat_map_same (B : Type) (f g : A -> list B) (l : list A) :
  (forall x, In x l -> f x = g x) -> flat_map f l = flat_map g l.
Proof.
  induction l as [|a l IH]; intros H; simpl; [reflexivity|].
  rewrite (H a (or_introl eq_refl)). f_equal.
  apply IH. intros x Hx. apply H. right. exact Hx.
Qed.

Lemma filter_same (p q : A -> bool) (l : list A) :
  (forall x, In x l -> p x = q x) -> filter p l = filter q l.
Proof.
  induction l as [|a l IH]; intros H; simpl; [reflexivity|].
  rewrite (H a (or_introl eq_refl)).
  rewrite IH; [reflexivity|]. intros x Hx. apply H. right. exact Hx.
Qed.

Lemma single_row (l : list A) (x : A) :
  List.length l <= 1 -> In x l -> l = [x].
Proof.
  destruct l as [|a [|b l]]; simpl; intros Hlen Hin.
  - contradiction.
  - destruct Hin as [->|[]]. reflexivity.
  - lia.
Qed.

Lemma no_row (l : list A) : (forall x, ~ In x l) -> l = [].
Proof.
  destruct l as [|a l]; intros H; [reflexivity|].
  exfalso. apply (H a). left. reflexivity.
Qed.

(** A key that is unique in a table selects exactly its row, also after
    the table has been filtered. *)
Lemma filter_by_unique_key (key : A -> pk) (q : A -> bool) (l : list A)
  (t : A) :
  NoDup (map key l) -> In t l ->
  filter (fun x => key x =? key t) (filter q l) = if q t then [t] else [].
Proof.
  induction l as [|a l IH]; simpl; intros Hnd Hin; [contradiction|].
  inversion Hnd as [|? ? Hnotin Hnd']; subst.
  destruct Hin as [->|Hin].
  - assert (Hrest : filter (fun x => key x =? key t) (filter q l) = []).
    { apply filter_none. intros x Hx. apply filter_In in Hx.
      destruct Hx as [Hx _]. apply Nat.eqb_neq. intros Heq.
      apply Hnotin. rewrite <- Heq. apply in_map. exact Hx. }
    destruct (q t); simpl.
    + rewrite Nat.eqb_refl, Hrest. reflexivity.
    + exact Hrest.
  - assert (Hne : key a <> key t).
    { intros Heq. apply Hnotin. rewrite Heq. apply in_map. exact Hin. }
    destruct (q a); simpl.
    + apply Nat.eqb_neq in Hne. rewrite Hne. apply IH; assumption.
    + apply IH; assumption.
Qed.

Lemma unique_key_eq (key : A -> pk) (l : list A) (x y : A) :
  NoDup (map key l) -> In x l -> In y l -> key x = key y -> x = y.
Proof.
  induction l as [|a l IH]; simpl; intros Hnd Hx Hy Hk; [contradiction|].
  inversion Hnd as [|? ? Hnotin Hnd']; subst.
  destruct Hx as [->|Hx], Hy as [->|Hy].
  - reflexivity.
  - exfalso. apply Hnotin. rewrite Hk. apply in_map. exact Hy.
  - exfalso. apply Hnotin. rewrite <- Hk. apply in_map. exact Hx.
  - apply IH; assumption.
Qed.

(** Saving an instance again under its own fresh key changes no row. *)
Lemma update_after_insert (key : A -> pk) (mk : pk -> A) (t : Table A) :
  (forall r, In r (rows t) -> key r < next_pk t) ->
  key (mk (next_pk t)) = next_pk t ->
  update key (fst (insert mk t)) (snd (insert mk t)) = snd (insert mk t).
Proof.
  intros Hbound Hkey. unfold update, insert. simpl. f_equal.
  rewrite map_app. simpl. rewrite Nat.eqb_refl. f_equal.
  rewrite <- (map_id (rows t)) at 2. apply map_ext_in.
  intros r Hr. rewrite Hkey.
  destruct (Nat.eqb_spec (key r) (next_pk t)) as [Heq|]; [|reflexivity].
  specialize (Hbound r Hr). lia.
Qed.

End ListFacts.

Lemma m2m_add_new (l : pk * pk) (j : m2m) : ~ In l j -> m2m_add l j = j ++ [l].
Proof.
  intros Hnotin. unfold m2m_add.
  destruct (existsb (pair_eqb l) j) eqn:E; [|reflexivity].
  exfalso. apply existsb_exists in E. destruct E as [x [Hx Heq]].
  unfold pair_eqb in Heq. apply andb_true_iff in Heq.
  destruct Heq as [H1 H2]. apply Nat.eqb_eq in H1. apply Nat.eqb_eq in H2.
  destruct l, x; simpl in *; subst. contradiction.
Qed.

Lemma m2m_add_In (l : pk * pk) (j : m2m) : In l (m2m_add l j).
Proof.
  unfold m2m_add. destruct (existsb (pair_eqb l) j) eqn:E.
  - apply existsb_exists in E. destruct E as [x [Hx Heq]].
    unfold pair_eqb in Heq. apply andb_true_iff in Heq.
    destruct Heq as [H1 H2]. apply Nat.eqb_eq in H1. apply Nat.eqb_eq in H2.
    destruct l, x; simpl in *; subst. exact Hx.
  - apply in_or_app. right. left. reflexivity.
Qed.

(** ** What the three lookups read *)

Lemma in_topic_constructs (self : TopicMap) (db : DB) (t : Topic) :
  In t (topic_constructs self db) <-> topic_of self db t.
Proof.
  unfold topic_constructs, topic_of. rewrite filter_In, Nat.eqb_eq. tauto.
Qed.

Lemma in_si_rows (self : TopicMap) (reference : string) (db : DB) (t : Topic) :
  In t (si_rows self reference db) <->
  topic_of self db t /\ owns_subject_identifier db t reference.
Proof.
  unfold filter_subject_identifiers__address, owns_subject_identifier.
  rewrite in_flat_map. split.
  - intros [si [Hsi Ht]]. apply filter_In in Hsi. apply filter_In in Ht.
    destruct Hsi as [Hsi Haddr], Ht as [Ht Hid].
    apply String.eqb_eq in Haddr. apply Nat.eqb_eq in Hid.
    split; [apply in_topic_constructs; exact Ht|].
    exists si. auto.
  - intros [Ht [si [Hsi [Hid Haddr]]]]. exists si. split.
    + apply filter_In. split; [exact Hsi|]. apply String.eqb_eq. exact Haddr.
    + apply filter_In. split; [apply in_topic_constructs; exact Ht|].
      apply Nat.eqb_eq. auto.
Qed.

Lemma in_sl_rows (self : TopicMap) (reference : string) (db : DB) (t : Topic) :
  In t (sl_rows self reference db) <->
  topic_of self db t /\ owns_subject_locator db t reference.
Proof.
  unfold filter_subject_locators__address, owns_subject_locator.
  rewrite in_flat_map. split.
  - intros [sl [Hsl Ht]]. apply filter_In in Hsl. apply filter_In in Ht.
    destruct Hsl as [Hsl Haddr], Ht as [Ht Hid].
    apply String.eqb_eq in Haddr. apply Nat.eqb_eq in Hid.
    split; [apply in_topic_constructs; exact Ht|].
    exists sl. auto.
  - intros [Ht [sl [Hsl [Hid Haddr]]]]. exists sl. split.
    + apply filter_In. split; [exact Hsl|]. apply String.eqb_eq. exact Haddr.
    + apply filter_In. split; [apply in_topic_constructs; exact Ht|].
      apply Nat.eqb_eq. auto.
Qed.

Lemma in_ii_rows (self : TopicMap) (reference : string) (db : DB) (t : Topic) :
  In t (ii_rows self reference db) <->
  topic_of self db t /\ owns_item_identifier db t reference.
Proof.
  unfold filter_item_identifiers__address, owns_item_identifier.
  rewrite in_flat_map. split.
  - intros [ii [Hii Hl]]. apply in_flat_map in Hl.
    destruct Hl as [l [Hl Ht]].
    apply filter_In in Hii. apply filter_In in Hl. apply filter_In in Ht.
    destruct Hii as [Hii Haddr], Hl as [Hl Hsnd], Ht as [Ht Hid].
    apply String.eqb_eq in Haddr. apply Nat.eqb_eq in Hsnd.
    apply Nat.eqb_eq in Hid.
    split; [apply in_topic_constructs; exact Ht|].
    exists ii. repeat split; try assumption.
    destruct l as [a b]. simpl in *. subst. exact Hl.
  - intros [Ht [ii [Hii [Haddr Hl]]]]. exists ii. split.
    + apply filter_In. split; [exact Hii|]. apply String.eqb_eq. exact Haddr.
    + apply in_flat_map. exists (topic_id t, ii_id ii). split.
      * apply filter_In. split; [exact Hl|]. apply Nat.eqb_refl.
      * apply filter_In. split; [apply in_topic_constructs; exact Ht|].
        apply Nat.eqb_refl.
Qed.

(** The lookups of a topic map read its key only. *)
Lemma topic_constructs_key (self self' : TopicMap) (db : DB) :
  tm_id self = tm_id self' -> topic_constructs self db = topic_constructs self' db.
Proof. unfold topic_constructs. intros ->. reflexivity. Qed.

Lemma fresh_item_identifier_unlinked (db : DB) (x : pk) :
  integrity db -> ~ In (x, next_pk (item_identifiers db)) (topic_item_identifiers db).
Proof.
  intros I Hin. destruct (tii_fk I _ Hin) as [_ [ii [Hii Hid]]].
  simpl in Hid. pose proof (ii_pk_bound I _ Hii). lia.
Qed.

(** ** The branches of the two alias-aware factories *)

Section Branches.

Variables (self : TopicMap) (loc : Locator) (db : DB).

Local Abbreviation reference := (to_external_form loc).

Lemma by_subject_identifier_found (t : Topic) :
  si_rows self reference db = [t] ->
  create_topic_by_subject_identifier self (Some loc) db = (Return t, db).
Proof.
  intros H. unfold create_topic_by_subject_identifier,
    try_except_DoesNotExist, bind, query, get.
  rewrite H. reflexivity.
Qed.

Lemma by_subject_identifier_alias (t : Topic) :
  integrity db ->
  si_rows self reference db = [] -> ii_rows self reference db = [t] ->
  create_topic_by_subject_identifier self (Some loc) db =
  (Return t, bind_subject_identifier t reference db).
Proof.
  intros I Hsi Hii. unfold create_topic_by_subject_identifier,
    try_except_DoesNotExist, bind, query, get.
  rewrite Hsi. cbn -[insert update]. rewrite Hii.
  cbn -[insert update]. unfold ret, exec, save_subject_identifier,
    subject_identifiers_add.
  pose proof (@update_after_insert _ si_id
                (fun id => {| si_id := id; si_topic := topic_id t;
                              si_address := reference |})
                (subject_identifiers db) (si_pk_bound I) eq_refl) as U.
  cbn -[update] in *. rewrite U. reflexivity.
Qed.

Lemma by_subject_identifier_new :
  integrity db ->
  si_rows self reference db = [] -> ii_rows self reference db = [] ->
  create_topic_by_subject_identifier self (Some loc) db =
  (Return (new_topic self db),
   bind_subject_identifier (new_topic self db) reference (add_topic self db)).
Proof.
  intros I Hsi Hii. unfold create_topic_by_subject_identifier,
    try_except_DoesNotExist, bind, query, get.
  rewrite Hsi. cbn -[insert update]. rewrite Hii.
  cbn -[insert update]. unfold ret, exec, save_subject_identifier,
    subject_identifiers_add.
  pose proof (@update_after_insert _ si_id
                (fun id => {| si_id := id;
                              si_topic := next_pk (topics db);
                              si_address := reference |})
                (subject_identifiers db) (si_pk_bound I) eq_refl) as U.
  cbn -[update] in *. rewrite U. reflexivity.
Qed.

Lemma by_item_identifier_found (t : Topic) :
  ii_rows self reference db = [t] ->
  create_topic_by_item_identifier self (Some loc) db = (Return t, db).
Proof.
  intros H. unfold create_topic_by_item_identifier,
    try_except_DoesNotExist, bind, query, get.
  rewrite H. reflexivity.
Qed.

Lemma by_item_identifier_alias (t : Topic) :
  integrity db ->
  ii_rows self reference db = [] -> si_rows self reference db = [t] ->
  create_topic_by_item_identifier self (Some loc) db =
  (Return t, bind_item_identifier self t reference db).
Proof.
  intros I Hii Hsi. unfold create_topic_by_item_identifier,
    try_except_DoesNotExist, bind, query, get.
  rewrite Hii. cbn -[m2m_add]. rewrite Hsi. cbn -[m2m_add].
  rewrite m2m_add_new by (apply fresh_item_identifier_unlinked; exact I).
  reflexivity.
Qed.

Lemma by_item_identifier_new :
  integrity db ->
  ii_rows self reference db = [] -> si_rows self reference db = [] ->
  create_topic_by_item_identifier self (Some loc) db =
  (Return (new_topic self db),
   bind_item_identifier self (new_topic self db) reference
     (add_topic self db)).
Proof.
  intros I Hii Hsi. unfold create_topic_by_item_identifier,
    try_except_DoesNotExist, bind, query, get.
  rewrite Hii. cbn -[m2m_add]. rewrite Hsi. cbn -[m2m_add].
  rewrite m2m_add_new by (apply fresh_item_identifier_unlinked; exact I).
  reflexivity.
Qed.

Lemma by_subject_locator_found (t : Topic) :
  sl_rows self reference db = [t] ->
  create_topic_by_subject_locator self (Some loc) db = (Return t, db).
Proof.
  intros H. unfold create_topic_by_subject_locator,
    try_except_DoesNotExist, bind, query, get.
  rewrite H. reflexivity.
Qed.

Lemma by_subject_locator_new :
  integrity db ->
  sl_rows self reference db = [] ->
  create_topic_by_subject_locator self (Some loc) db =
  (Return (new_topic self db),
   bind_subject_locator (new_topic self db) reference (add_topic self db)).
Proof.
  intros I Hsl. unfold create_topic_by_subject_locator,
    try_except_DoesNotExist, bind, query, get.
  rewrite Hsl. cbn -[insert update].
  unfold ret, exec, save_subject_locator, subject_locators_add.
  pose proof (@update_after_insert _ sl_id
                (fun id => {| sl_id := id;
                              sl_topic := next_pk (topics db);
                              sl_address := reference |})
                (subject_locators db) (sl_pk_bound I) eq_refl) as U.
  cbn -[update] in *. rewrite U. reflexivity.
Qed.

End Branches.

Lemma create_topic_run (self : TopicMap) (db : DB) :
  create_topic self db = (Return (new_topic self db), add_topic self db).
Proof. reflexivity. Qed.

(** ** Integrity is kept by every write *)

Lemma new_topic_fresh (self : TopicMap) (db : DB) (t : Topic) :
  integrity db -> In t (rows (topics db)) ->
  topic_id t <> topic_id (new_topic self db).
Proof. intros I Ht. pose proof (topic_pk_bound I _ Ht). simpl. lia. Qed.

Lemma integrity_empty : integrity empty_db.
Proof.
  constructor; simpl; try (intros ? []); constructor.
Qed.

Lemma integrity_add_topic (self : TopicMap) (db : DB) :
  integrity db -> integrity (add_topic self db).
Proof.
  intros I. constructor; simpl.
  - rewrite map_app. simpl. apply NoDup_app.
    + exact (topic_pk_unique I).
    + constructor; [intros []|constructor].
    + intros x Hx [Hx'|[]]. subst x. apply in_map_iff in Hx.
      destruct Hx as [t [Heq Ht]]. pose proof (topic_pk_bound I _ Ht). lia.
  - intros t Ht. apply in_app_or in Ht. destruct Ht as [Ht|[<-|[]]].
    + pose proof (topic_pk_bound I _ Ht). lia.
    + simpl. lia.
  - exact (si_pk_bound I).
  - intros si Hsi. destruct (si_fk I _ Hsi) as [t [Ht Hid]].
    exists t. split; [apply in_or_app; left; exact Ht|exact Hid].
  - exact (sl_pk_bound I).
  - intros sl Hsl. destruct (sl_fk I _ Hsl) as [t [Ht Hid]].
    exists t. split; [apply in_or_app; left; exact Ht|exact Hid].
  - exact (ii_pk_bound I).
  - intros l Hl. destruct (tii_fk I _ Hl) as [[t [Ht Hid]] Hii].
    split; [|exact Hii].
    exists t. split; [apply in_or_app; left; exact Ht|exact Hid].
Qed.

Lemma integrity_bind_subject_identifier (t : Topic) (reference : string)
  (db : DB) :
  integrity db -> In t (rows (topics db)) ->
  integrity (bind_subject_identifier t reference db).
Proof.
  intros I Ht. constructor; simpl.
  - exact (topic_pk_unique I).
  - exact (topic_pk_bound I).
  - intros si Hsi. apply in_app_or in Hsi. destruct Hsi as [Hsi|[<-|[]]].
    + pose proof (si_pk_bound I _ Hsi). lia.
    + simpl. lia.
  - intros si Hsi. apply in_app_or in Hsi. destruct Hsi as [Hsi|[<-|[]]].
    + exact (si_fk I _ Hsi).
    + exists t. split; [exact Ht|reflexivity].
  - exact (sl_pk_bound I).
  - exact (sl_fk I).
  - exact (ii_pk_bound I).
  - exact (tii_fk I).
Qed.

Lemma integrity_bind_subject_locator (t : Topic) (reference : string)
  (db : DB) :
  integrity db -> In t (rows (topics db)) ->
  integrity (bind_subject_locator t reference db).
Proof.
  intros I Ht. constructor; simpl.
  - exact (topic_pk_unique I).
  - exact (topic_pk_bound I).
  - exact (si_pk_bound I).
  - exact (si_fk I).
  - intros sl Hsl. apply in_app_or in Hsl. destruct Hsl as [Hsl|[<-|[]]].
    + pose proof (sl_pk_bound I _ Hsl). lia.
    + simpl. lia.
  - intros sl Hsl. apply in_app_or in Hsl. destruct Hsl as [Hsl|[<-|[]]].
    + exact (sl_fk I _ Hsl).
    + exists t. split; [exact Ht|reflexivity].
  - exact (ii_pk_bound I).
  - exact (tii_fk I).
Qed.

Lemma integrity_bind_item_identifier (self : TopicMap) (t : Topic)
  (reference : string) (db : DB) :
  integrity db -> In t (rows (topics db)) ->
  integrity (bind_item_identifier self t reference db).
Proof.
  intros I Ht. constructor; simpl.
  - exact (topic_pk_unique I).
  - exact (topic_pk_bound I).
  - exact (si_pk_bound I).
  - exact (si_fk I).
  - exact (sl_pk_bound I).
  - exact (sl_fk I).
  - intros ii Hii. apply in_app_or in Hii. destruct Hii as [Hii|[<-|[]]].
    + pose proof (ii_pk_bound I _ Hii). lia.
    + simpl. lia.
  - intros l Hl. apply in_app_or in Hl. destruct Hl as [Hl|[<-|[]]].
    + destruct (tii_fk I _ Hl) as [Ht' [ii [Hii Hid]]]. split; [exact Ht'|].
      exists ii. split; [apply in_or_app; left; exact Hii|exact Hid].
    + split.
      * exists t. split; [exact Ht|reflexivity].
      * eexists. split; [apply in_or_app; right; left; reflexivity|].
        reflexivity.
Qed.

Lemma new_topic_in (self : TopicMap) (db : DB) :
  In (new_topic self db) (rows (topics (add_topic self db))).
Proof. simpl. apply in_or_app. right. left. reflexivity. Qed.

(** ** The lookups after each write *)

Lemma topic_constructs_add_topic (self self' : TopicMap) (db : DB) :
  topic_constructs self' (add_topic self db) =
  topic_constructs self' db ++
  (if tm_id self =? tm_id self' then [new_topic self db] else []).
Proof.
  unfold topic_constructs. simpl. rewrite filter_app. reflexivity.
Qed.

(** A key that no row of a join names adds nothing to the join. *)
Lemma filter_key_app_fresh (k : pk) (qs extra : list Topic) :
  (forall t, In t extra -> topic_id t <> k) ->
  filter (fun t => topic_id t =? k) (qs ++ extra) =
  filter (fun t => topic_id t =? k) qs.
Proof.
  intros H. rewrite filter_app.
  rewrite (@filter_none _ _ extra); [apply app_nil_r|].
  intros t Ht. apply Nat.eqb_neq. apply H. exact Ht.
Qed.

Lemma new_topic_only (self self' : TopicMap) (db : DB) (t : Topic) :
  In t (if tm_id self =? tm_id self' then [new_topic self db] else []) ->
  t = new_topic self db.
Proof.
  destruct (tm_id self =? tm_id self'); simpl; intros H.
  - destruct H as [<-|[]]. reflexivity.
  - contradiction.
Qed.

Lemma si_rows_add_topic (self self' : TopicMap) (reference : string) (db : DB) :
  integrity db ->
  si_rows self' reference (add_topic self db) = si_rows self' reference db.
Proof.
  intros I. unfold filter_subject_identifiers__address.
  rewrite topic_constructs_add_topic. simpl.
  apply flat_map_same. intros si Hsi. apply filter_In in Hsi.
  destruct Hsi as [Hsi _]. apply filter_key_app_fresh.
  intros t Ht. apply new_topic_only in Ht. subst t.
  destruct (si_fk I _ Hsi) as [t [Ht Hid]]. rewrite <- Hid.
  intros Heq. symmetry in Heq. revert Heq. apply new_topic_fresh; assumption.
Qed.

Lemma sl_rows_add_topic (self self' : TopicMap) (reference : string) (db : DB) :
  integrity db ->
  sl_rows self' reference (add_topic self db) = sl_rows self' reference db.
Proof.
  intros I. unfold filter_subject_locators__address.
  rewrite topic_constructs_add_topic. simpl.
  apply flat_map_same. intros sl Hsl. apply filter_In in Hsl.
  destruct Hsl as [Hsl _]. apply filter_key_app_fresh.
  intros t Ht. apply new_topic_only in Ht. subst t.
  destruct (sl_fk I _ Hsl) as [t [Ht Hid]]. rewrite <- Hid.
  intros Heq. symmetry in Heq. revert Heq. apply new_topic_fresh; assumption.
Qed.

Lemma ii_rows_add_topic (self self' : TopicMap) (reference : string) (db : DB) :
  integrity db ->
  ii_rows self' reference (add_topic self db) = ii_rows self' reference db.
Proof.
  intros I. unfold filter_item_identifiers__address.
  rewrite topic_constructs_add_topic. simpl.
  apply flat_map_same. intros ii _. apply flat_map_same. intros [a b] Hl.
  apply filter_In in Hl. destruct Hl as [Hl _]. apply filter_key_app_fresh.
  intros t Ht. apply new_topic_only in Ht. subst t.
  destruct (tii_fk I _ Hl) as [[t [Ht Hid]] _]. simpl in Hid. subst a.
  pose proof (topic_pk_bound I _ Ht). simpl. lia.
Qed.

Lemma si_rows_bind_subject_identifier (self' : TopicMap) (t : Topic)
  (reference reference' : string) (db : DB) :
  si_rows self' reference' (bind_subject_identifier t reference db) =
  si_rows self' reference' db ++
  (if String.eqb reference reference' then
     filter (fun x => topic_id x =? topic_id t) (topic_constructs self' db)
   else []).
Proof.
  unfold filter_subject_identifiers__address. simpl.
  rewrite filter_app, flat_map_app. f_equal. simpl.
  destruct (String.eqb reference reference'); simpl;
    [apply app_nil_r|reflexivity].
Qed.

Lemma sl_rows_bind_subject_locator (self' : TopicMap) (t : Topic)
  (reference reference' : string) (db : DB) :
  sl_rows self' reference' (bind_subject_locator t reference db) =
  sl_rows self' reference' db ++
  (if String.eqb reference reference' then
     filter (fun x => topic_id x =? topic_id t) (topic_constructs self' db)
   else []).
Proof.
  unfold filter_subject_locators__address. simpl.
  rewrite filter_app, flat_map_app. f_equal. simpl.
  destruct (String.eqb reference reference'); simpl;
    [apply app_nil_r|reflexivity].
Qed.

Lemma ii_rows_bind_item_identifier (self self' : TopicMap) (t : Topic)
  (reference reference' : string) (db : DB) :
  integrity db ->
  ii_rows self' reference' (bind_item_identifier self t reference db) =
  ii_rows self' reference' db ++
  (if String.eqb reference reference' then
     filter (fun x => topic_id x =? topic_id t) (topic_constructs self' db)
   else []).
Proof.
  intros I. unfold filter_item_identifiers__address. simpl.
  rewrite filter_app, flat_map_app. f_equal.
  - apply flat_map_same. intros ii Hii. apply filter_In in Hii.
    destruct Hii as [Hii _]. rewrite filter_app. simpl.
    pose proof (ii_pk_bound I _ Hii) as Hb.
    destruct (Nat.eqb_spec (next_pk (item_identifiers db)) (ii_id ii));
      [lia|]. rewrite app_nil_r. reflexivity.
  - simpl. destruct (String.eqb reference reference'); simpl; [|reflexivity].
    rewrite filter_app. simpl. rewrite Nat.eqb_refl.
    rewrite (@filter_none _ _ (topic_item_identifiers db)).
    + simpl. rewrite !app_nil_r. reflexivity.
    + intros [a b] Hl. simpl. apply Nat.eqb_neq. intros ->.
      revert Hl. apply fresh_item_identifier_unlinked. exact I.
Qed.

(** The topic with a given key, among the topics of a map. *)
Lemma filter_topic_key (self' : TopicMap) (db : DB) (t : Topic) :
  integrity db -> In t (rows (topics db)) ->
  filter (fun x => topic_id x =? topic_id t) (topic_constructs self' db) =
  if topic_map t =? tm_id self' then [t] else [].
Proof.
  intros I Ht. unfold topic_constructs.
  apply (@filter_by_unique_key _ topic_id
           (fun x => topic_map x =? tm_id self')).
  - exact (topic_pk_unique I).
  - exact Ht.
Qed.

(** ** Uniqueness is kept by every write the factories make *)

Lemma lookup_cases (l : list Topic) :
  List.length l <= 1 -> l = [] \/ exists t, l = [t].
Proof.
  destruct l as [|a [|b l]]; simpl; intros H.
  - left. reflexivity.
  - right. exists a. reflexivity.
  - lia.
Qed.

Lemma unique_empty : unique_identifiers empty_db.
Proof. intros self reference. simpl. lia. Qed.

Lemma unique_add_topic (self : TopicMap) (db : DB) :
  integrity db -> unique_identifiers db ->
  unique_identifiers (add_topic self db).
Proof.
  intros I U self' reference.
  rewrite si_rows_add_topic, ii_rows_add_topic, sl_rows_add_topic by exact I.
  apply U.
Qed.

(** Binding an address to a topic adds one row to the lookups of that
    topic's map at that address, and none elsewhere. *)
Lemma bound_row_length (self self' : TopicMap) (t : Topic)
  (reference reference' : string) (db : DB) (old : TopicMap -> list Topic) :
  integrity db -> topic_of self db t ->
  (forall s s', tm_id s = tm_id s' -> old s = old s') ->
  (reference = reference' -> old self = []) ->
  List.length (old self') <= 1 ->
  List.length
    (old self' ++
     (if String.eqb reference reference' then
        filter (fun x => topic_id x =? topic_id t) (topic_constructs self' db)
      else [])) <= 1.
Proof.
  intros I [Ht Hmap] Hkey Hnone Hlen. rewrite length_app.
  destruct (String.eqb_spec reference reference') as [Heq|Hne].
  - rewrite (filter_topic_key self' _ I Ht).
    destruct (Nat.eqb_spec (topic_map t) (tm_id self')) as [Hm|Hm].
    + rewrite (Hkey self' self) by congruence.
      rewrite (Hnone Heq). simpl. lia.
    + simpl. lia.
  - simpl. lia.
Qed.

Lemma unique_bind_subject_identifier (self : TopicMap) (t : Topic)
  (reference : string) (db : DB) :
  integrity db -> unique_identifiers db -> topic_of self db t ->
  si_rows self reference db = [] ->
  unique_identifiers (bind_subject_identifier t reference db).
Proof.
  intros I U Ht Hnone self' reference'.
  destruct (U self' reference') as [Usi [Uii Usl]].
  split; [|split; [exact Uii|exact Usl]].
  rewrite si_rows_bind_subject_identifier.
  apply (@bound_row_length self self' t reference reference' db
           (fun s => si_rows s reference' db)); try assumption.
  - intros s s' Hs. rewrite (topic_constructs_key s s' db Hs). reflexivity.
  - intros <-. exact Hnone.
Qed.

Lemma unique_bind_subject_locator (self : TopicMap) (t : Topic)
  (reference : string) (db : DB) :
  integrity db -> unique_identifiers db -> topic_of self db t ->
  sl_rows self reference db = [] ->
  unique_identifiers (bind_subject_locator t reference db).
Proof.
  intros I U Ht Hnone self' reference'.
  destruct (U self' reference') as [Usi [Uii Usl]].
  split; [exact Usi|split; [exact Uii|]].
  rewrite sl_rows_bind_subject_locator.
  apply (@bound_row_length self self' t reference reference' db
           (fun s => sl_rows s reference' db)); try assumption.
  - intros s s' Hs. rewrite (topic_constructs_key s s' db Hs). reflexivity.
  - intros <-. exact Hnone.
Qed.

Lemma unique_bind_item_identifier (self self0 : TopicMap) (t : Topic)
  (reference : string) (db : DB) :
  integrity db -> unique_identifiers db -> topic_of self db t ->
  ii_rows self reference db = [] ->
  unique_identifiers (bind_item_identifier self0 t reference db).
Proof.
  intros I U Ht Hnone self' reference'.
  destruct (U self' reference') as [Usi [Uii Usl]].
  split; [exact Usi|split; [|exact Usl]].
  rewrite ii_rows_bind_item_identifier by exact I.
  apply (@bound_row_length self self' t reference reference' db
           (fun s => ii_rows s reference' db)); try assumption.
  - intros s s' Hs. rewrite (topic_constructs_key s s' db Hs). reflexivity.
  - intros <-. exact Hnone.
Qed.

(** ** Ownership after each write *)

Lemma topic_of_add_topic (self self' : TopicMap) (db : DB) (t : Topic) :
  topic_of self' (add_topic self db) t <->
  topic_of self' db t \/ (t = new_topic self db /\ tm_id self = tm_id self').
Proof.
  unfold topic_of. simpl. rewrite in_app_iff. simpl. split.
  - intros [[H|[H|[]]] Hm]; [left; auto|right].
    subst t. simpl in Hm. auto.
  - intros [[H Hm]|[-> Hm]]; [auto|]. simpl. auto.
Qed.

Lemma owner_exists_si (db : DB) (t : Topic) (reference : string) :
  integrity db -> owns_subject_identifier db t reference ->
  exists t0, In t0 (rows (topics db)) /\ topic_id t0 = topic_id t.
Proof.
  intros I [si [Hsi [Hid _]]]. destruct (si_fk I _ Hsi) as [t0 [Ht0 H]].
  exists t0. split; [exact Ht0|congruence].
Qed.

Lemma owner_exists_sl (db : DB) (t : Topic) (reference : string) :
  integrity db -> owns_subject_locator db t reference ->
  exists t0, In t0 (rows (topics db)) /\ topic_id t0 = topic_id t.
Proof.
  intros I [sl [Hsl [Hid _]]]. destruct (sl_fk I _ Hsl) as [t0 [Ht0 H]].
  exists t0. split; [exact Ht0|congruence].
Qed.

Lemma owner_exists_ii (db : DB) (t : Topic) (reference : string) :
  integrity db -> owns_item_identifier db t reference ->
  exists t0, In t0 (rows (topics db)) /\ topic_id t0 = topic_id t.
Proof.
  intros I [ii [_ [_ Hl]]]. destruct (tii_fk I _ Hl) as [[t0 [Ht0 H]] _].
  exists t0. split; [exact Ht0|exact H].
Qed.

(** The topic [create_topic] is about to insert owns no identifier. *)
Lemma new_topic_owns_nothing (self : TopicMap) (db : DB) (reference : string) :
  integrity db ->
  ~ owns_subject_identifier db (new_topic self db) reference /\
  ~ owns_item_identifier db (new_topic self db) reference /\
  ~ owns_subject_locator db (new_topic self db) reference.
Proof.
  intros I. repeat split; intros H.
  - destruct (owner_exists_si I H) as [t0 [Ht0 Hid]].
    exact (new_topic_fresh self _ I Ht0 Hid).
  - destruct (owner_exists_ii I H) as [t0 [Ht0 Hid]].
    exact (new_topic_fresh self _ I Ht0 Hid).
  - destruct (owner_exists_sl I H) as [t0 [Ht0 Hid]].
    exact (new_topic_fresh self _ I Ht0 Hid).
Qed.

Lemma owns_si_bind (t t' : Topic) (reference reference' : string) (db : DB) :
  owns_subject_identifier (bind_subject_identifier t reference db) t'
    reference' <->
  owns_subject_identifier db t' reference' \/
  (topic_id t' = topic_id t /\ reference' = reference).
Proof.
  unfold owns_subject_identifier. simpl. split.
  - intros [si [Hsi [Hid Haddr]]]. apply in_app_or in Hsi.
    destruct Hsi as [Hsi|[<-|[]]].
    + left. exists si. auto.
    + right. simpl in *. auto.
  - intros [[si [Hsi H]]|[Hid ->]].
    + exists si. split; [apply in_or_app; left; exact Hsi|exact H].
    + eexists. split; [apply in_or_app; right; left; reflexivity|].
      simpl. auto.
Qed.

Lemma owns_ii_bind (self : TopicMap) (t t' : Topic)
  (reference reference' : string) (db : DB) :
  integrity db ->
  owns_item_identifier (bind_item_identifier self t reference db) t'
    reference' <->
  owns_item_identifier db t' reference' \/
  (topic_id t' = topic_id t /\ reference' = reference).
Proof.
  intros I. unfold owns_item_identifier. simpl. split.
  - intros [ii [Hii [Haddr Hl]]]. apply in_app_or in Hii.
    apply in_app_or in Hl.
    destruct Hii as [Hii|[<-|[]]], Hl as [Hl|[Hl|[]]].
    + left. exists ii. auto.
    + exfalso. inversion Hl as [[H1 H2]].
      pose proof (ii_pk_bound I _ Hii). lia.
    + exfalso. simpl in Hl. revert Hl.
      apply fresh_item_identifier_unlinked. exact I.
    + right. inversion Hl. simpl in *. auto.
  - intros [[ii [Hii [Haddr Hl]]]|[Hid ->]].
    + exists ii. split; [apply in_or_app; left; exact Hii|].
      split; [exact Haddr|apply in_or_app; left; exact Hl].
    + eexists. split; [apply in_or_app; right; left; reflexivity|].
      simpl. split; [reflexivity|]. apply in_or_app. right. left.
      rewrite Hid. reflexivity.
Qed.

(** ** Coherence is kept by every write the factories make *)

Lemma coherent_empty : coherent empty_db.
Proof. intros self reference t1 t2 [[] _]. Qed.

Lemma coherent_add_topic (self : TopicMap) (db : DB) :
  integrity db -> coherent db -> coherent (add_topic self db).
Proof.
  intros I C self' reference t1 t2 H1 O1 H2 O2.
  change (owns_subject_identifier db t1 reference) in O1.
  change (owns_item_identifier db t2 reference) in O2.
  apply topic_of_add_topic in H1. apply topic_of_add_topic in H2.
  destruct (new_topic_owns_nothing self reference I) as [Nsi [Nii _]].
  destruct H1 as [H1|[-> _]]; [|contradiction].
  destruct H2 as [H2|[-> _]]; [|contradiction].
  exact (C self' reference t1 t2 H1 O1 H2 O2).
Qed.

Lemma coherent_bind_subject_identifier (self : TopicMap) (t : Topic)
  (reference : string) (db : DB) :
  integrity db -> coherent db -> topic_of self db t ->
  (forall t2, topic_of self db t2 -> owns_item_identifier db t2 reference ->
              t2 = t) ->
  coherent (bind_subject_identifier t reference db).
Proof.
  intros I C [Ht Hm] Honly self' reference' t1 t2 H1 O1 H2 O2.
  change (owns_item_identifier db t2 reference') in O2.
  change (topic_of self' db t1) in H1. change (topic_of self' db t2) in H2.
  apply owns_si_bind in O1. destruct O1 as [O1|[Hid ->]].
  - exact (C self' reference' t1 t2 H1 O1 H2 O2).
  - destruct H1 as [H1 Hm1].
    assert (t1 = t) by
      (apply (@unique_key_eq _ topic_id _ _ _ (topic_pk_unique I) H1 Ht Hid)).
    subst t1. symmetry. apply Honly; [|exact O2].
    destruct H2 as [H2 Hm2]. split; [exact H2|congruence].
Qed.

Lemma coherent_bind_item_identifier (self self0 : TopicMap) (t : Topic)
  (reference : string) (db : DB) :
  integrity db -> coherent db -> topic_of self db t ->
  (forall t1, topic_of self db t1 -> owns_subject_identifier db t1 reference ->
              t1 = t) ->
  coherent (bind_item_identifier self0 t reference db).
Proof.
  intros I C [Ht Hm] Honly self' reference' t1 t2 H1 O1 H2 O2.
  change (owns_subject_identifier db t1 reference') in O1.
  change (topic_of self' db t1) in H1. change (topic_of self' db t2) in H2.
  apply owns_ii_bind in O2; [|exact I]. destruct O2 as [O2|[Hid ->]].
  - exact (C self' reference' t1 t2 H1 O1 H2 O2).
  - destruct H2 as [H2 Hm2].
    assert (t2 = t) by
      (apply (@unique_key_eq _ topic_id _ _ _ (topic_pk_unique I) H2 Ht Hid)).
    subst t2. apply Honly; [|exact O1].
    destruct H1 as [H1 Hm1]. split; [exact H1|congruence].
Qed.

Lemma coherent_bind_subject_locator (t : Topic) (reference : string) (db : DB) :
  coherent db -> coherent (bind_subject_locator t reference db).
Proof. intros C. exact C. Qed.

(** ** From ownership to the row a lookup returns *)

Section Lookups.

Variables (self : TopicMap) (db : DB) (reference : string).
Hypothesis W : wf db.

Lemma si_rows_owner (t : Topic) :
  topic_of self db t -> owns_subject_identifier db t reference ->
  si_rows self reference db = [t].
Proof.
  intros Ht Ho. apply single_row.
  - apply (proj2 W self reference).
  - apply in_si_rows. auto.
Qed.

Lemma ii_rows_owner (t : Topic) :
  topic_of self db t -> owns_item_identifier db t reference ->
  ii_rows self reference db = [t].
Proof.
  intros Ht Ho. apply single_row.
  - apply (proj2 W self reference).
  - apply in_ii_rows. auto.
Qed.

Lemma sl_rows_owner (t : Topic) :
  topic_of self db t -> owns_subject_locator db t reference ->
  sl_rows self reference db = [t].
Proof.
  intros Ht Ho. apply single_row.
  - apply (proj2 W self reference).
  - apply in_sl_rows. auto.
Qed.

Lemma si_rows_unowned :
  (forall t, topic_of self db t -> ~ owns_subject_identifier db t reference) ->
  si_rows self reference db = [].
Proof.
  intros H. apply no_row. intros t Ht. apply in_si_rows in Ht.
  destruct Ht as [Ht Ho]. exact (H t Ht Ho).
Qed.

Lemma ii_rows_unowned :
  (forall t, topic_of self db t -> ~ owns_item_identifier db t reference) ->
  ii_rows self reference db = [].
Proof.
  intros H. apply no_row. intros t Ht. apply in_ii_rows in Ht.
  destruct Ht as [Ht Ho]. exact (H t Ht Ho).
Qed.

Lemma si_rows_cases :
  si_rows self reference db = [] \/
  exists t, si_rows self reference db = [t] /\ topic_of self db t /\
            owns_subject_identifier db t reference.
Proof.
  destruct (@lookup_cases _ (proj1 (proj2 W self reference))) as [E|[t E]].
  - left. exact E.
  - right. exists t. split; [exact E|]. apply in_si_rows. rewrite E.
    left. reflexivity.
Qed.

Lemma ii_rows_cases :
  ii_rows self reference db = [] \/
  exists t, ii_rows self reference db = [t] /\ topic_of self db t /\
            owns_item_identifier db t reference.
Proof.
  destruct (@lookup_cases _ (proj1 (proj2 (proj2 W self reference))))
    as [E|[t E]].
  - left. exact E.
  - right. exists t. split; [exact E|]. apply in_ii_rows. rewrite E.
    left. reflexivity.
Qed.

Lemma sl_rows_cases :
  sl_rows self reference db = [] \/
  exists t, sl_rows self reference db = [t] /\ topic_of self db t /\
            owns_subject_locator db t reference.
Proof.
  destruct (@lookup_cases _ (proj2 (proj2 (proj2 W self reference))))
    as [E|[t E]].
  - left. exact E.
  - right. exists t. split; [exact E|]. apply in_sl_rows. rewrite E.
    left. reflexivity.
Qed.

End Lookups.

Lemma topic_of_new_topic (self : TopicMap) (db : DB) :
  topic_of self (add_topic self db) (new_topic self db).
Proof. split; [apply new_topic_in|reflexivity]. Qed.

Lemma wf_empty : wf empty_db.
Proof. split; [exact integrity_empty|exact unique_empty]. Qed.

Lemma wf_add_topic (self : TopicMap) (db : DB) :
  wf db -> wf (add_topic self db).
Proof.
  intros [I U]. split; [apply integrity_add_topic|apply unique_add_topic];
    assumption.
Qed.

(** ** What each factory leaves behind *)

(** [create_topic_by_subject_identifier] on a non-null locator returns a
    topic of the map that owns the address as a subject identifier, and
    keeps the invariants. *)
Lemma by_subject_identifier_post (self : TopicMap) (loc : Locator) (db : DB) :
  wf db ->
  exists t db1,
    create_topic_by_subject_identifier self (Some loc) db = (Return t, db1) /\
    wf db1 /\ (coherent db -> coherent db1) /\
    topic_of self db1 t /\
    owns_subject_identifier db1 t (to_external_form loc).
Proof.
  intros W. pose proof W as [I U].
  set (reference := to_external_form loc).
  destruct (si_rows_cases self reference W) as [Esi|[t [Esi [Ht Ho]]]].
  - destruct (ii_rows_cases self reference W) as [Eii|[t [Eii [Ht Ho]]]].
    + pose proof (wf_add_topic self W) as W'. pose proof W' as [I' U'].
      pose proof (topic_of_new_topic self db) as Hn.
      assert (Esi' : si_rows self reference (add_topic self db) = [])
        by (rewrite si_rows_add_topic; assumption).
      assert (Eii' : ii_rows self reference (add_topic self db) = [])
        by (rewrite ii_rows_add_topic; assumption).
      eexists. eexists. split; [apply by_subject_identifier_new; assumption|].
      split; [split|split; [|split]].
      * apply integrity_bind_subject_identifier; [exact I'|apply Hn].
      * eapply unique_bind_subject_identifier; eassumption.
      * intros C. eapply coherent_bind_subject_identifier;
          [exact I'|apply coherent_add_topic; assumption|exact Hn|].
        intros t2 Ht2 Ho2. exfalso.
        assert (Hin : In t2 (ii_rows self reference (add_topic self db)))
          by (apply in_ii_rows; auto).
        rewrite Eii' in Hin. exact Hin.
      * exact Hn.
      * apply owns_si_bind. right. auto.
    + eexists. eexists.
      split; [apply by_subject_identifier_alias; eassumption|].
      split; [split|split; [|split]].
      * apply integrity_bind_subject_identifier; [exact I|apply Ht].
      * eapply unique_bind_subject_identifier; eassumption.
      * intros C. eapply coherent_bind_subject_identifier; try eassumption.
        intros t2 Ht2 Ho2.
        assert (Hin : In t2 (ii_rows self reference db))
          by (apply in_ii_rows; auto).
        rewrite Eii in Hin. destruct Hin as [<-|[]]. reflexivity.
      * exact Ht.
      * apply owns_si_bind. right. auto.
  - exists t, db. split; [apply by_subject_identifier_found; exact Esi|].
    auto.
Qed.

(** [create_topic_by_item_identifier] on a non-null locator returns a
    topic of the map that owns the address as an item identifier, and
    keeps the invariants. *)
Lemma by_item_identifier_post (self : TopicMap) (loc : Locator) (db : DB) :
  wf db ->
  exists t db1,
    create_topic_by_item_identifier self (Some loc) db = (Return t, db1) /\
    wf db1 /\ (coherent db -> coherent db1) /\
    topic_of self db1 t /\
    owns_item_identifier db1 t (to_external_form loc).
Proof.
  intros W. pose proof W as [I U].
  set (reference := to_external_form loc).
  destruct (ii_rows_cases self reference W) as [Eii|[t [Eii [Ht Ho]]]].
  - destruct (si_rows_cases self reference W) as [Esi|[t [Esi [Ht Ho]]]].
    + pose proof (wf_add_topic self W) as W'. pose proof W' as [I' U'].
      pose proof (topic_of_new_topic self db) as Hn.
      assert (Esi' : si_rows self reference (add_topic self db) = [])
        by (rewrite si_rows_add_topic; assumption).
      assert (Eii' : ii_rows self reference (add_topic self db) = [])
        by (rewrite ii_rows_add_topic; assumption).
      eexists. eexists. split; [apply by_item_identifier_new; assumption|].
      split; [split|split; [|split]].
      * apply integrity_bind_item_identifier; [exact I'|apply Hn].
      * eapply unique_bind_item_identifier; eassumption.
      * intros C. eapply coherent_bind_item_identifier;
          [exact I'|apply coherent_add_topic; assumption|exact Hn|].
        intros t1 Ht1 Ho1. exfalso.
        assert (Hin : In t1 (si_rows self reference (add_topic self db)))
          by (apply in_si_rows; auto).
        rewrite Esi' in Hin. exact Hin.
      * exact Hn.
      * apply owns_ii_bind; [exact I'|]. right. auto.
    + eexists. eexists.
      split; [apply by_item_identifier_alias; eassumption|].
      split; [split|split; [|split]].
      * apply integrity_bind_item_identifier; [exact I|apply Ht].
      * eapply unique_bind_item_identifier; eassumption.
      * intros C. eapply coherent_bind_item_identifier; try eassumption.
        intros t1 Ht1 Ho1.
        assert (Hin : In t1 (si_rows self reference db))
          by (apply in_si_rows; auto).
        rewrite Esi in Hin. destruct Hin as [<-|[]]. reflexivity.
      * exact Ht.
      * apply owns_ii_bind; [exact I|]. right. auto.
  - exists t, db. split; [apply by_item_identifier_found; exact Eii|].
    auto.
Qed.

(** [create_topic_by_subject_locator] keeps the invariants too. *)
Lemma by_subject_locator_post (self : TopicMap) (loc : Locator) (db : DB) :
  wf db ->
  exists t db1,
    create_topic_by_subject_locator self (Some loc) db = (Return t, db1) /\
    wf db1 /\ (coherent db -> coherent db1) /\ topic_of self db1 t.
Proof.
  intros W. pose proof W as [I U].
  set (reference := to_external_form loc).
  destruct (sl_rows_cases self reference W) as [Esl|[t [Esl [Ht Ho]]]].
  - pose proof (wf_add_topic self W) as W'. pose proof W' as [I' U'].
    pose proof (topic_of_new_topic self db) as Hn.
    assert (Esl' : sl_rows self reference (add_topic self db) = [])
      by (rewrite sl_rows_add_topic; assumption).
    eexists. eexists. split; [apply by_subject_locator_new; assumption|].
    split; [split|split].
    + apply integrity_bind_subject_locator; [exact I'|apply Hn].
    + eapply unique_bind_subject_locator; eassumption.
    + intros C. apply coherent_bind_subject_locator.
      apply coherent_add_topic; assumption.
    + exact Hn.
  - exists t, db. split; [apply by_subject_locator_found; exact Esl|].
    auto.
Qed.

(** ** The identifiers a topic carries after a write *)

Lemma get_subject_identifiers_bind (t : Topic) (reference : string) (db : DB) :
  map si_address
    (get_subject_identifiers t (bind_subject_identifier t reference db)) =
  map si_address (get_subject_identifiers t db) ++ [reference].
Proof.
  unfold get_subject_identifiers. simpl. rewrite filter_app. simpl.
  rewrite Nat.eqb_refl, map_app. reflexivity.
Qed.

Lemma new_topic_bare (self : TopicMap) (db : DB) :
  integrity db ->
  get_subject_identifiers (new_topic self db) db = [] /\
  get_subject_locators (new_topic self db) db = [] /\
  get_item_identifiers (new_topic self db) db = [].
Proof.
  intros I. repeat split.
  - apply filter_none. intros si Hsi. apply Nat.eqb_neq.
    destruct (si_fk I _ Hsi) as [t [Ht <-]]. apply new_topic_fresh; assumption.
  - apply filter_none. intros sl Hsl. apply Nat.eqb_neq.
    destruct (sl_fk I _ Hsl) as [t [Ht <-]]. apply new_topic_fresh; assumption.
  - unfold get_item_identifiers.
    rewrite (@filter_none _ _ (topic_item_identifiers db)); [reflexivity|].
    intros [a b] Hl. apply Nat.eqb_neq.
    destruct (tii_fk I _ Hl) as [[t [Ht Hid]] _]. simpl in Hid. subst a.
    apply new_topic_fresh; assumption.
Qed.

Lemma new_topic_not_in (self : TopicMap) (db : DB) :
  integrity db -> ~ In (new_topic self db) (rows (topics db)).
Proof.
  intros I Hin. exact (new_topic_fresh self _ I Hin eq_refl).
Qed.

(** ** The sample topic maps are well formed *)

Lemma wf_ex_db_ii : wf ex_db_ii.
Proof.
  destruct (by_item_identifier_post ex_tm ex_loc wf_empty)
    as [t [db1 [Hrun [W _]]]].
  unfold ex_db_ii. rewrite Hrun. exact W.
Qed.

Lemma wf_ex_db_association : wf ex_db_association.
Proof.
  split.
  - constructor; simpl.
    + repeat constructor. intros [].
    + intros t [<-|[]]. simpl. lia.
    + intros si [].
    + intros si [].
    + intros sl [].
    + intros sl [].
    + intros ii [<-|[]]. simpl. lia.
    + intros l [].
  - intros self reference.
    unfold filter_subject_identifiers__address,
      filter_item_identifiers__address, filter_subject_locators__address.
    cbn -[String.eqb]. destruct (String.eqb _ reference); simpl; lia.
Qed.

Lemma wf_ex_db_split : wf ex_db_split.
Proof.
  pose proof (wf_add_topic ex_tm (wf_add_topic ex_tm wf_empty)) as [I U].
  assert (I1 : integrity
                 (bind_subject_identifier (ex_topic 1 1)
                    (to_external_form ex_loc)
                    (add_topic ex_tm (add_topic ex_tm empty_db)))).
  { apply integrity_bind_subject_identifier; [exact I|]. simpl. auto. }
  assert (U1 : unique_identifiers
                 (bind_subject_identifier (ex_topic 1 1)
                    (to_external_form ex_loc)
                    (add_topic ex_tm (add_topic ex_tm empty_db)))).
  { apply (@unique_bind_subject_identifier ex_tm); try assumption.
    - split; simpl; auto.
    - reflexivity. }
  split.
  - apply integrity_bind_item_identifier; [exact I1|]. simpl. auto.
  - apply (@unique_bind_item_identifier ex_tm); try assumption.
    + split; simpl; auto.
    + reflexivity.
Qed.

(** ** One factory after the other *)

Lemma by_si_of_ii_owner (self : TopicMap) (loc : Locator) (db : DB)
  (t : Topic) :
  wf db -> coherent db -> topic_of self db t ->
  owns_item_identifier db t (to_external_form loc) ->
  exists db', create_topic_by_subject_identifier self (Some loc) db =
                (Return t, db') /\ topics db' = topics db.
Proof.
  intros W C Ht Ho.
  destruct (si_rows_cases self (to_external_form loc) W)
    as [Esi|[t' [Esi [Ht' Ho']]]].
  - exists (bind_subject_identifier t (to_external_form loc) db).
    split; [|reflexivity].
    apply by_subject_identifier_alias; [apply W|exact Esi|].
    apply ii_rows_owner; assumption.
  - exists db. split; [|reflexivity].
    rewrite <- (C self _ t' t Ht' Ho' Ht Ho).
    apply by_subject_identifier_found. exact Esi.
Qed.

Lemma by_ii_of_si_owner (self : TopicMap) (loc : Locator) (db : DB)
  (t : Topic) :
  wf db -> coherent db -> topic_of self db t ->
  owns_subject_identifier db t (to_external_form loc) ->
  exists db', create_topic_by_item_identifier self (Some loc) db =
                (Return t, db') /\ topics db' = topics db.
Proof.
  intros W C Ht Ho.
  destruct (ii_rows_cases self (to_external_form loc) W)
    as [Eii|[t' [Eii [Ht' Ho']]]].
  - exists (bind_item_identifier self t (to_external_form loc) db).
    split; [|reflexivity].
    apply by_item_identifier_alias; [apply W|exact Eii|].
    apply si_rows_owner; assumption.
  - exists db. split; [|reflexivity].
    rewrite (C self _ t t' Ht Ho Ht' Ho').
    apply by_item_identifier_found. exact Eii.
Qed.

(** The outcome of [create_topic_by_item_identifier] is the same whatever
    item identifiers the associations of the map own. *)
Lemma by_item_identifier_frame (self : TopicMap) (loc : option Locator)
  (j : m2m) (db : DB) :
  create_topic_by_item_identifier self loc
    (set_association_item_identifiers j db) =
  (fst (create_topic_by_item_identifier self loc db),
   set_association_item_identifiers j
     (snd (create_topic_by_item_identifier self loc db))).
Proof.
  destruct loc as [loc|]; [|reflexivity].
  unfold create_topic_by_item_identifier, try_except_DoesNotExist, bind,
    query, get.
  change (ii_rows self (to_external_form loc)
            (set_association_item_identifiers j db))
    with (ii_rows self (to_external_form loc) db).
  destruct (ii_rows self (to_external_form loc) db) as [|t [|t' l]];
    [|reflexivity|reflexivity].
  cbn -[m2m_add filter_subject_identifiers__address topic_constructs].
  change (si_rows self (to_external_form loc)
            (set_association_item_identifiers j db))
    with (si_rows self (to_external_form loc) db).
  destruct (si_rows self (to_external_form loc) db) as [|t [|t' l]];
    reflexivity.
Qed.

(** * The specification, statement by statement *)

(** C1.  [create_topic_by_subject_identifier] on a topic map whose identity
    index is well formed: a null locator raises the constraint error and
    leaves the database alone; otherwise the topic of the map that owns the
    address as a subject identifier is returned, nothing written; otherwise
    a topic of the map that owns it as an item identifier is returned with
    the address added to its subject identifiers, no topic created and the
    item identifier kept; otherwise a topic that was not in the database is
    inserted into the map with the address as its only subject identifier,
    and returned. *)
Theorem create_topic_by_subject_identifier_spec (self : TopicMap) (db : DB) :
  wf db ->
  create_topic_by_subject_identifier self None db =
    (Raise ModelConstraintException, db) /\
  forall loc : Locator,
    let reference := to_external_form loc in
    (forall t, topic_of self db t -> owns_subject_identifier db t reference ->
       create_topic_by_subject_identifier self (Some loc) db = (Return t, db))
    /\
    ((forall t, topic_of self db t ->
                ~ owns_subject_identifier db t reference) ->
     (forall t, topic_of self db t -> owns_item_identifier db t reference ->
        exists db',
          create_topic_by_subject_identifier self (Some loc) db =
            (Return t, db') /\
          topics db' = topics db /\
          owns_item_identifier db' t reference /\
          owns_subject_identifier db' t reference /\
          map si_address (get_subject_identifiers t db') =
            map si_address (get_subject_identifiers t db) ++ [reference])
     /\
     ((forall t, topic_of self db t -> ~ owns_item_identifier db t reference) ->
      exists t db',
        create_topic_by_subject_identifier self (Some loc) db =
          (Return t, db') /\
        ~ In t (rows (topics db)) /\
        rows (topics db') = rows (topics db) ++ [t] /\
        topic_map t = tm_id self /\
        map si_address (get_subject_identifiers t db') = [reference])).
Proof.
  intros W. pose proof W as [I U]. split; [reflexivity|].
  intros loc reference. split.
  - intros t Ht Ho. apply by_subject_identifier_found.
    apply si_rows_owner; assumption.
  - intros Hnone.
    pose proof (si_rows_unowned Hnone) as Esi. split.
    + intros t Ht Ho. exists (bind_subject_identifier t reference db).
      split; [|split; [reflexivity|split; [exact Ho|split]]].
      * apply by_subject_identifier_alias; try assumption.
        apply ii_rows_owner; assumption.
      * apply owns_si_bind. right. auto.
      * apply get_subject_identifiers_bind.
    + intros Hnone'.
      pose proof (ii_rows_unowned Hnone') as Eii.
      exists (new_topic self db).
      exists (bind_subject_identifier (new_topic self db) reference
                (add_topic self db)).
      split; [apply by_subject_identifier_new; assumption|].
      split; [apply new_topic_not_in; exact I|].
      split; [reflexivity|]. split; [reflexivity|].
      rewrite get_subject_identifiers_bind.
      change (get_subject_identifiers (new_topic self db) (add_topic self db))
        with (get_subject_identifiers (new_topic self db) db).
      rewrite (proj1 (new_topic_bare self I)). reflexivity.
Qed.

(** C1 on sample data: the empty topic map meets the hypothesis, where the
    null locator is refused and a non-null one makes a topic; so does the
    map in which topic 1 owns the address as an item identifier, where the
    call returns topic 1 and adds the address to its subject identifiers. *)
Lemma create_topic_by_subject_identifier_spec_witness :
  (wf empty_db /\
   create_topic_by_subject_identifier ex_tm None empty_db =
     (Raise ModelConstraintException, empty_db) /\
   exists t db',
     create_topic_by_subject_identifier ex_tm (Some ex_loc) empty_db =
       (Return t, db') /\
     rows (topics db') = [t] /\
     map si_address (get_subject_identifiers t db') =
       [to_external_form ex_loc]) /\
  (wf ex_db_ii /\
   exists db',
     create_topic_by_subject_identifier ex_tm (Some ex_loc) ex_db_ii =
       (Return (ex_topic 1 1), db') /\
     topics db' = topics ex_db_ii /\
     map si_address (get_subject_identifiers (ex_topic 1 1) db') =
       [to_external_form ex_loc]).
Proof.
  split.
  - split; [exact wf_empty|].
    destruct (create_topic_by_subject_identifier_spec ex_tm wf_empty)
      as [Hnull Hloc].
    split; [exact Hnull|].
    destruct (Hloc ex_loc) as [_ Hrest].
    destruct Hrest as [_ Hnew]; [intros t [[] _]|].
    destruct Hnew as [t [db' [Hrun [_ [Hrows [_ Hsi]]]]]]; [intros t [[] _]|].
    exists t, db'. split; [exact Hrun|]. split; [exact Hrows|exact Hsi].
  - split; [exact wf_ex_db_ii|].
    destruct (create_topic_by_subject_identifier_spec ex_tm wf_ex_db_ii)
      as [_ Hloc].
    destruct (Hloc ex_loc) as [_ Hrest].
    destruct Hrest as [Halias _]; [intros t _ [si [[] _]]|].
    destruct (Halias (ex_topic 1 1)) as [db' [Hrun [Htopics [_ [_ Hsi]]]]].
    + split; [left; reflexivity|reflexivity].
    + eexists. split; [left; reflexivity|]. split; [reflexivity|].
      left. reflexivity.
    + exists db'. split; [exact Hrun|]. split; [exact Htopics|exact Hsi].
Defined.

(** C2, as stated, fails.  An association of the topic map owns the address
    as an item identifier and no topic does; the call raises nothing: it
    inserts topic 2 and gives it the same address, so that afterwards two
    constructs of the map own one item identifier. *)
Lemma create_topic_by_item_identifier_no_construct_check :
  In ex_association (rows (associations ex_db_association)) /\
  association_topic_map ex_association = tm_id ex_tm /\
  association_owns_item_identifier ex_db_association ex_association
    (to_external_form ex_loc) /\
  exists db',
    create_topic_by_item_identifier ex_tm (Some ex_loc) ex_db_association =
      (Return (ex_topic 2 1), db') /\
    ~ In (ex_topic 2 1) (rows (topics ex_db_association)) /\
    owns_item_identifier db' (ex_topic 2 1) (to_external_form ex_loc) /\
    association_owns_item_identifier db' ex_association
      (to_external_form ex_loc).
Proof.
  split; [left; reflexivity|]. split; [reflexivity|]. split.
  - eexists. split; [left; reflexivity|]. split; [reflexivity|].
    left. reflexivity.
  - eexists. split; [reflexivity|]. split.
    + simpl. intros [H|[]]. discriminate H.
    + split.
      * eexists. split; [right; left; reflexivity|]. split; [reflexivity|].
        left. reflexivity.
      * eexists. split; [left; reflexivity|]. split; [reflexivity|].
        left. reflexivity.
Qed.

(** C2, amended.  [create_topic_by_item_identifier] on a non-null locator
    looks among the topics of the map only.  It always returns a topic; the
    topic of the map that owns the address as an item identifier, nothing
    written; otherwise a topic of the map that owns it as a subject
    identifier, with the address added as an item identifier and no topic
    created; otherwise a topic that was not in the database, inserted into
    the map with the address as an item identifier.  The item identifiers
    of the associations are not consulted: replacing them changes neither
    the outcome nor what is written. *)
Theorem create_topic_by_item_identifier_spec (self : TopicMap) (db : DB) :
  wf db ->
  forall loc : Locator,
    let reference := to_external_form loc in
    (exists t db',
       create_topic_by_item_identifier self (Some loc) db = (Return t, db')) /\
    (forall t, topic_of self db t -> owns_item_identifier db t reference ->
       create_topic_by_item_identifier self (Some loc) db = (Return t, db)) /\
    ((forall t, topic_of self db t -> ~ owns_item_identifier db t reference) ->
     (forall t, topic_of self db t -> owns_subject_identifier db t reference ->
        exists db',
          create_topic_by_item_identifier self (Some loc) db =
            (Return t, db') /\
          topics db' = topics db /\
          owns_subject_identifier db' t reference /\
          owns_item_identifier db' t reference)
     /\
     ((forall t, topic_of self db t ->
                 ~ owns_subject_identifier db t reference) ->
      exists t db',
        create_topic_by_item_identifier self (Some loc) db =
          (Return t, db') /\
        ~ In t (rows (topics db)) /\
        rows (topics db') = rows (topics db) ++ [t] /\
        topic_map t = tm_id self /\
        owns_item_identifier db' t reference)) /\
    (forall j : m2m,
       create_topic_by_item_identifier self (Some loc)
         (set_association_item_identifiers j db) =
       (fst (create_topic_by_item_identifier self (Some loc) db),
        set_association_item_identifiers j
          (snd (create_topic_by_item_identifier self (Some loc) db)))).
Proof.
  intros W. pose proof W as [I U]. intros loc reference.
  split; [|split; [|split]].
  - destruct (by_item_identifier_post self loc W) as [t [db' [Hrun _]]].
    exists t, db'. exact Hrun.
  - intros t Ht Ho. apply by_item_identifier_found.
    apply ii_rows_owner; assumption.
  - intros Hnone. pose proof (ii_rows_unowned Hnone) as Eii. split.
    + intros t Ht Ho. exists (bind_item_identifier self t reference db).
      split; [|split; [reflexivity|split; [exact Ho|]]].
      * apply by_item_identifier_alias; try assumption.
        apply si_rows_owner; assumption.
      * apply owns_ii_bind; [exact I|]. right. auto.
    + intros Hnone'. pose proof (si_rows_unowned Hnone') as Esi.
      exists (new_topic self db).
      exists (bind_item_identifier self (new_topic self db) reference
                (add_topic self db)).
      split; [apply by_item_identifier_new; assumption|].
      split; [apply new_topic_not_in; exact I|].
      split; [reflexivity|]. split; [reflexivity|].
      apply owns_ii_bind; [apply integrity_add_topic; exact I|]. right. auto.
  - intros j. apply by_item_identifier_frame.
Qed.

(** C2 amended, on the sample map in which an association owns the address:
    the map meets the hypothesis and the call makes a topic. *)
Lemma create_topic_by_item_identifier_spec_witness :
  wf ex_db_association /\
  exists t db',
    create_topic_by_item_identifier ex_tm (Some ex_loc) ex_db_association =
      (Return t, db') /\
    ~ In t (rows (topics ex_db_association)) /\
    owns_item_identifier db' t (to_external_form ex_loc).
Proof.
  split; [exact wf_ex_db_association|].
  destruct (create_topic_by_item_identifier_spec ex_tm wf_ex_db_association
              ex_loc) as [_ [_ [Hrest _]]].
  destruct Hrest as [_ Hnew]; [intros t _ [ii [_ [_ []]]]|].
  destruct Hnew as [t [db' [Hrun [Hfresh [_ [_ Ho]]]]]];
    [intros t _ [si [[] _]]|].
  exists t, db'. split; [exact Hrun|]. split; [exact Hfresh|exact Ho].
Defined.

(** C3.  On a topic map whose identity index is well formed, the first
    call of [create_topic_by_subject_identifier] on a non-null locator
    returns a topic that is then stored in the map and owns the address as
    a subject identifier: a topic the map had already, no topic being
    created, or one that was not stored and is the only topic added.  The
    second call in succession returns that same topic and writes nothing. *)
Theorem create_topic_by_subject_identifier_twice (self : TopicMap) (db : DB) :
  wf db ->
  forall loc : Locator,
    exists t db1,
      create_topic_by_subject_identifier self (Some loc) db =
        (Return t, db1) /\
      wf db1 /\
      topic_of self db1 t /\
      owns_subject_identifier db1 t (to_external_form loc) /\
      ((topic_of self db t /\ topics db1 = topics db) \/
       (~ In t (rows (topics db)) /\
        rows (topics db1) = rows (topics db) ++ [t])) /\
      create_topic_by_subject_identifier self (Some loc) db1 =
        (Return t, db1).
Proof.
  intros W loc. pose proof W as [I U].
  destruct (by_subject_identifier_post self loc W)
    as [t [db1 [Hrun [W1 [_ [Ht Ho]]]]]].
  exists t, db1. split; [exact Hrun|]. split; [exact W1|].
  split; [exact Ht|]. split; [exact Ho|]. split.
  - destruct (si_rows_cases self (to_external_form loc) W)
      as [Esi|[t1 [Esi [Ht1 Ho1]]]].
    + destruct (ii_rows_cases self (to_external_form loc) W)
        as [Eii|[t2 [Eii [Ht2 Ho2]]]].
      * rewrite (by_subject_identifier_new self loc I Esi Eii) in Hrun.
        injection Hrun as <- <-. right.
        split; [apply new_topic_not_in; exact I|reflexivity].
      * rewrite (by_subject_identifier_alias self loc I Esi Eii) in Hrun.
        injection Hrun as <- <-. left. split; [exact Ht2|reflexivity].
    + rewrite (by_subject_identifier_found self loc db Esi) in Hrun.
      injection Hrun as <- <-. left. split; [exact Ht1|reflexivity].
  - apply by_subject_identifier_found. apply si_rows_owner; assumption.
Qed.

(** C3 on the empty topic map: the first call makes a topic, which the map
    then stores as the owner of the address, and the second returns it. *)
Lemma create_topic_by_subject_identifier_twice_witness :
  wf empty_db /\
  exists t db1,
    create_topic_by_subject_identifier ex_tm (Some ex_loc) empty_db =
      (Return t, db1) /\
    topic_of ex_tm db1 t /\
    owns_subject_identifier db1 t (to_external_form ex_loc) /\
    create_topic_by_subject_identifier ex_tm (Some ex_loc) db1 =
      (Return t, db1).
Proof.
  split; [exact wf_empty|].
  destruct (create_topic_by_subject_identifier_twice ex_tm wf_empty ex_loc)
    as [t [db1 [H1 [_ [Ht [Ho [_ H2]]]]]]].
  exists t, db1. auto.
Defined.

(** Uniqueness is an assumption on the store as well: where two topics of
    the map carry the subject identifier, [get] finds two rows and its
    exception escapes the factory. *)
Remark duplicate_subject_identifier_raises :
  create_topic_by_subject_identifier ex_tm (Some ex_loc) ex_db_duplicate =
  (Raise Topic_MultipleObjectsReturned, ex_db_duplicate) /\
  ~ unique_identifiers ex_db_duplicate.
Proof.
  split; [reflexivity|]. intros U.
  destruct (U ex_tm (to_external_form ex_loc)) as [H _].
  vm_compute in H. lia.
Qed.

(** C4.  On a topic map whose identity index is well formed and coherent,
    for a non-null locator: [create_topic_by_item_identifier] yields a
    topic, and [create_topic_by_subject_identifier] called next returns that
    same topic and creates none; and the other way round. *)
Theorem cross_identifier_aliasing (self : TopicMap) (db : DB) :
  wf db -> coherent db ->
  forall loc : Locator,
    (exists t db1 db2,
       create_topic_by_item_identifier self (Some loc) db = (Return t, db1) /\
       create_topic_by_subject_identifier self (Some loc) db1 =
         (Return t, db2) /\
       topics db2 = topics db1) /\
    (exists t db1 db2,
       create_topic_by_subject_identifier self (Some loc) db =
         (Return t, db1) /\
       create_topic_by_item_identifier self (Some loc) db1 =
         (Return t, db2) /\
       topics db2 = topics db1).
Proof.
  intros W C loc. split.
  - destruct (by_item_identifier_post self loc W)
      as [t [db1 [Hrun [W1 [C1 [Ht Ho]]]]]].
    destruct (by_si_of_ii_owner loc W1 (C1 C) Ht Ho) as [db2 [Hrun2 Hsame]].
    exists t, db1, db2. auto.
  - destruct (by_subject_identifier_post self loc W)
      as [t [db1 [Hrun [W1 [C1 [Ht Ho]]]]]].
    destruct (by_ii_of_si_owner loc W1 (C1 C) Ht Ho) as [db2 [Hrun2 Hsame]].
    exists t, db1, db2. auto.
Qed.

(** C4 on the empty topic map, which is well formed and coherent: either
    order of the two factories yields one topic twice. *)
Lemma cross_identifier_aliasing_witness :
  wf empty_db /\ coherent empty_db /\
  (exists t db1 db2,
     create_topic_by_item_identifier ex_tm (Some ex_loc) empty_db =
       (Return t, db1) /\
     create_topic_by_subject_identifier ex_tm (Some ex_loc) db1 =
       (Return t, db2) /\
     topics db2 = topics db1) /\
  (exists t db1 db2,
     create_topic_by_subject_identifier ex_tm (Some ex_loc) empty_db =
       (Return t, db1) /\
     create_topic_by_item_identifier ex_tm (Some ex_loc) db1 =
       (Return t, db2) /\
     topics db2 = topics db1).
Proof.
  split; [exact wf_empty|]. split; [exact coherent_empty|].
  exact (cross_identifier_aliasing ex_tm wf_empty coherent_empty ex_loc).
Defined.

(** Coherence is an assumption on the store that the factories keep but do
    not establish: in a well-formed store that splits an address between
    two topics, each factory answers with the topic on its own side. *)
Remark split_store_answers :
  wf ex_db_split /\
  create_topic_by_item_identifier ex_tm (Some ex_loc) ex_db_split =
    (Return (ex_topic 2 1), ex_db_split) /\
  create_topic_by_subject_identifier ex_tm (Some ex_loc) ex_db_split =
    (Return (ex_topic 1 1), ex_db_split).
Proof.
  split; [exact wf_ex_db_split|]. split; reflexivity.
Qed.

(** ** Types, roles and occurrences *)


Lemma qs_filter_no_condition (qs : list Role) : qs_filter [] qs = qs.
Proof.
  unfold qs_filter. induction qs as [|r qs IH]; simpl; [reflexivity|].
  f_equal. exact IH.
Qed.

Lemma get_topic_by_subject_identifier_some (self : TopicMap) (loc : Locator)
  (db : DB) (t : Topic) :
  fst (get_topic_by_subject_identifier self (Some loc) db) =
    Return (Some t) ->
  In t (si_rows self (to_external_form loc) db).
Proof.
  unfold get_topic_by_subject_identifier, try_except_DoesNotExist, bind,
    query, get.
  destruct (si_rows self (to_external_form loc) db) as [|a [|b l]];
    simpl; intros H; inversion H. left. reflexivity.
Qed.

Lemma get_topic_by_subject_locator_some (self : TopicMap) (loc : Locator)
  (db : DB) (t : Topic) :
  fst (get_topic_by_subject_locator self (Some loc) db) =
    Return (Some t) ->
  In t (sl_rows self (to_external_form loc) db).
Proof.
  unfold get_topic_by_subject_locator, try_except_DoesNotExist, bind,
    query, get.
  destruct (sl_rows self (to_external_form loc) db) as [|a [|b l]];
    simpl; intros H; inversion H. left. reflexivity.
Qed.

Lemma stored_as_row (o : Occurrence) : stored_as o (occurrence_row o).
Proof.
  unfold stored_as, occurrence_row. simpl. repeat split.
  - destruct (occurrence_value o) as [s|l]; simpl; eexists; reflexivity.
  - intros s Hs. rewrite Hs. simpl. rewrite <- Hs. destruct o; reflexivity.
Qed.


(** C6.  [create_role] raises the constraint error exactly when the role
    type or the player is null; with both given it inserts a role with
    that type and player in the association, whatever topic maps the two
    topics belong to: there are a role type and a player of another topic
    map than the association's for which the call returns. *)
Theorem create_role_constraint (self : Association)
  (role_type player : option Topic) (db : DB) :
  ((exists db', create_role self role_type player db =
                  (Raise ModelConstraintException, db')) <->
   role_type = None \/ player = None) /\
  (forall rt pl : Topic,
     exists r db',
       create_role self (Some rt) (Some pl) db = (Return r, db') /\
       rows (roles db') = rows (roles db) ++ [r] /\
       role_association_id r = association_id self /\
       role_type_id r = topic_id rt /\ role_player_id r = topic_id pl /\
       role_topic_map r = association_topic_map self) /\
  (exists rt pl r db',
     topic_map rt <> association_topic_map self /\
     topic_map pl <> association_topic_map self /\
     create_role self (Some rt) (Some pl) db = (Return r, db')).
Proof.
  split; [|split].
  - destruct role_type as [rt|], player as [pl|]; simpl; split.
    + intros [db' H]. discriminate H.
    + intros [H|H]; discriminate H.
    + intros _. right. reflexivity.
    + intros _. exists db. reflexivity.
    + intros _. left. reflexivity.
    + intros _. exists db. reflexivity.
    + intros _. left. reflexivity.
    + intros _. exists db. reflexivity.
  - intros rt pl. eexists. eexists. split; [reflexivity|].
    repeat split.
  - exists (ex_topic 1 (S (association_topic_map self))).
    exists (ex_topic 2 (S (association_topic_map self))).
    eexists. eexists. split; [simpl; lia|]. split; [simpl; lia|].
    reflexivity.
Qed.

(** C7.  [create_occurrence] without a datatype gives the occurrence
    xsd:anyURI for a locator value and xsd:string for a string value; with
    a datatype it gives it that datatype.  The occurrence returned has the
    value it was made with, and the one row the database gains is the row
    of that occurrence, with the same datatype.  The two inferred
    datatypes differ. *)
Theorem create_occurrence_datatype (self type : Topic) (value : Value)
  (scope : option (list Topic)) (db : DB) :
  (exists o db',
     create_occurrence self type value scope None db = (Return o, db') /\
     (exists row, rows (occurrences db') = rows (occurrences db) ++ [row] /\
                  stored_as o row) /\
     occurrence_topic o = topic_id self /\
     occurrence_type_id o = topic_id type /\ occurrence_value o = value /\
     (forall l, value = LocatorValue l -> occurrence_datatype o = XSD_ANY_URI)
     /\
     (forall s, value = StringValue s -> occurrence_datatype o = XSD_STRING))
  /\
  (forall datatype : Locator,
     exists o db',
       create_occurrence self type value scope (Some datatype) db =
         (Return o, db') /\
       (exists row, rows (occurrences db') = rows (occurrences db) ++ [row] /\
                    stored_as o row) /\
       occurrence_value o = value /\
       occurrence_datatype o = to_external_form datatype) /\
  XSD_ANY_URI <> XSD_STRING.
Proof.
  split; [|split].
  - eexists. eexists. split; [reflexivity|]. split.
    + eexists. split; [reflexivity|]. apply stored_as_row.
    + simpl. repeat split; intros x ->; reflexivity.
  - intros datatype. eexists. eexists. split; [reflexivity|]. split.
    + eexists. split; [reflexivity|]. apply stored_as_row.
    + split; reflexivity.
  - discriminate.
Qed.

(** C8.  [get_roles_played] with an association type and no role type
    raises; it answers no query and writes nothing.  The exception is
    Python's [Exception] with the message of the source, and this is the
    only combination of arguments the method rejects. *)
Theorem get_roles_played_association_type_alone (self association_type : Topic)
  (db : DB) :
  get_roles_played self None (Some association_type) db =
  (Raise (Exception "This is a broken call to get_roles_played, specifying an assocation type but not a role type"),
   db) /\
  forall role_type association_type' : option Topic,
    (exists e db',
       get_roles_played self role_type association_type' db = (Raise e, db'))
    <-> role_type = None /\ association_type' <> None.
Proof.
  split; [reflexivity|].
  intros [rt|] [ty|]; split.
  - intros [e [db' H]]. discriminate H.
  - intros [H _]. discriminate H.
  - intros [e [db' H]]. discriminate H.
  - intros [H _]. discriminate H.
  - intros _. split; [reflexivity|discriminate].
  - intros _. eexists. exists db. reflexivity.
  - intros [e [db' H]]. discriminate H.
  - intros [_ H]. exfalso. apply H. reflexivity.
Qed.

(** C9.  With a role type given, [get_roles_played] returns the same roles
    with and without an association type: the roles the topic plays with
    that role type, in associations of any type. *)
Theorem get_roles_played_association_type_ignored
  (self role_type association_type : Topic) (db : DB) :
  get_roles_played self (Some role_type) (Some association_type) db =
  get_roles_played self (Some role_type) None db /\
  get_roles_played self (Some role_type) (Some association_type) db =
  (Return
     (filter (fun r => role_type_id r =? topic_id role_type)
        (role_players self db)), db).
Proof.
  unfold get_roles_played, bind, query, ret.
  rewrite qs_filter_no_condition. split; [reflexivity|].
  f_equal. f_equal. unfold qs_filter. apply filter_same.
  intros r _. simpl. apply andb_true_r.
Qed.

(** Topic 5 plays a role of type 3 in an association of type 7 and in one
    of type 8; asked for its roles of type 3 in associations of type 7 the
    method returns both. *)
Example get_roles_played_both_associations :
  fst (get_roles_played (ex_topic 5 1) (Some (ex_topic 3 1))
         (Some (ex_topic 7 1)) ex_db_roles) =
  Return (rows (roles ex_db_roles)) /\
  map association_type_id (rows (associations ex_db_roles)) = [7; 8].
Proof. split; reflexivity. Qed.

(** C10.  On a database that keeps its keys, [create_topic] returns a topic
    that was not stored before, under a key no stored topic has, and inserts
    it into the map; it writes no item identifier, and the topic has no
    item identifier, no subject identifier and no subject locator; no
    lookup by subject identifier, by subject locator or by item identifier
    in any topic map returns it. *)
Theorem create_topic_bare (self : TopicMap) (db : DB) :
  integrity db ->
  exists t db',
    create_topic self db = (Return t, db') /\
    ~ In t (rows (topics db)) /\
    (forall t0, In t0 (rows (topics db)) -> topic_id t0 <> topic_id t) /\
    rows (topics db') = rows (topics db) ++ [t] /\
    topic_map t = tm_id self /\
    item_identifiers db' = item_identifiers db /\
    topic_item_identifiers db' = topic_item_identifiers db /\
    get_item_identifiers t db' = [] /\
    get_subject_identifiers t db' = [] /\
    get_subject_locators t db' = [] /\
    forall (self' : TopicMap) (loc : Locator),
      fst (get_topic_by_subject_identifier self' (Some loc) db') <>
        Return (Some t) /\
      fst (get_topic_by_subject_locator self' (Some loc) db') <>
        Return (Some t) /\
      ~ In t (ii_rows self' (to_external_form loc) db').
Proof.
  intros I. exists (new_topic self db), (add_topic self db).
  destruct (new_topic_bare self I) as [Bsi [Bsl Bii]].
  split; [reflexivity|]. split; [apply new_topic_not_in; exact I|].
  split; [intros t0 Ht0; apply new_topic_fresh; assumption|].
  split; [reflexivity|]. split; [reflexivity|]. split; [reflexivity|].
  split; [reflexivity|]. split; [exact Bii|]. split; [exact Bsi|].
  split; [exact Bsl|].
  intros self' loc.
  destruct (new_topic_owns_nothing self (to_external_form loc) I)
    as [Nsi [Nii Nsl]].
  split; [|split].
  - intros H. apply get_topic_by_subject_identifier_some in H.
    apply in_si_rows in H. destruct H as [_ H]. exact (Nsi H).
  - intros H. apply get_topic_by_subject_locator_some in H.
    apply in_sl_rows in H. destruct H as [_ H]. exact (Nsl H).
  - intros H. apply in_ii_rows in H. destruct H as [_ H]. exact (Nii H).
Qed.

(** C10 on the sample map with one topic: it keeps its keys, and the topic
    [create_topic] returns has no identifier of any kind. *)
Lemma create_topic_bare_witness :
  integrity ex_db_ii /\
  exists t db',
    create_topic ex_tm ex_db_ii = (Return t, db') /\
    ~ In t (rows (topics ex_db_ii)) /\
    get_item_identifiers t db' = [] /\
    get_subject_identifiers t db' = [] /\
    get_subject_locators t db' = [].
Proof.
  split; [exact (proj1 wf_ex_db_ii)|].
  destruct (create_topic_bare ex_tm (proj1 wf_ex_db_ii))
    as [t [db' [Hrun [Hfresh [_ [_ [_ [_ [_ [Hii [Hsi [Hsl _]]]]]]]]]]]].
  exists t, db'. auto.
Defined.

(** ** Every topic map the factories build is well formed and coherent *)

Lemma wf_same_index (db db' : DB) : same_index db db' -> wf db -> wf db'.
Proof.
  destruct db, db'. unfold same_index. simpl.
  intros (-> & -> & -> & -> & ->) [I U]. split; [|exact U].
  destruct I. constructor; assumption.
Qed.

Lemma coherent_same_index (db db' : DB) :
  same_index db db' -> coherent db -> coherent db'.
Proof.
  destruct db, db'. unfold same_index. simpl.
  intros (-> & -> & -> & -> & ->) C. exact C.
Qed.

Lemma same_index_refl (db : DB) : same_index db db.
Proof. repeat split. Qed.

Lemma same_index_scope_add_all (association : Association)
  (scope : list Topic) (db : DB) :
  same_index db (snd (scope_add_all association scope db)).
Proof.
  revert db. induction scope as [|topic rest IH]; intros db.
  - apply same_index_refl.
  - simpl. unfold bind, exec.
    destruct (IH (set_association_scope
                    (m2m_add (association_id association, topic_id topic)
                       (association_scope db)) db))
      as (H1 & H2 & H3 & H4 & H5).
    repeat split; assumption.
Qed.

Lemma same_index_create_association (self : TopicMap) (type : option Topic)
  (scope : option (list Topic)) (db : DB) :
  same_index db (snd (create_association self type scope db)).
Proof.
  destruct type as [type|]; [|apply same_index_refl].
  unfold create_association, bind, save_association. simpl.
  match goal with
  | |- context [scope_add_all ?a ?s ?d] =>
      pose proof (same_index_scope_add_all a s d) as H;
      destruct (scope_add_all a s d) as [[u|e] d']
  end; simpl in *; exact H.
Qed.

Lemma same_index_add_type (self type : Topic) (db : DB) :
  same_index db (snd (add_type self type db)).
Proof.
  unfold add_type. destruct (negb (topic_map self =? topic_map type));
    repeat split.
Qed.

Lemma same_index_create_occurrence (self type : Topic) (value : Value)
  (scope : option (list Topic)) (datatype : option Locator) (db : DB) :
  same_index db (snd (create_occurrence self type value scope datatype db)).
Proof. repeat split. Qed.

Lemma same_index_create_role (self : Association)
  (role_type player : option Topic) (db : DB) :
  same_index db (snd (create_role self role_type player db)).
Proof.
  destruct role_type, player; repeat split.
Qed.

Lemma reachable_wf_coherent (db : DB) : reachable db -> wf db /\ coherent db.
Proof.
  induction 1 as [|self db _ [W C]|self loc db _ [W C]|self loc db _ [W C]
                  |self loc db _ [W C]|self type scope db _ [W C]
                  |self type db _ [W C]|self type value scope datatype db _ [W C]
                  |self role_type player db _ [W C]].
  - split; [exact wf_empty|exact coherent_empty].
  - split; [apply wf_add_topic; exact W|].
    apply coherent_add_topic; [apply W|exact C].
  - destruct loc as [loc|]; [|split; assumption].
    destruct (by_item_identifier_post self loc W)
      as [t [db1 [Hrun [W1 [C1 _]]]]].
    rewrite Hrun. split; [exact W1|exact (C1 C)].
  - destruct loc as [loc|]; [|split; assumption].
    destruct (by_subject_identifier_post self loc W)
      as [t [db1 [Hrun [W1 [C1 _]]]]].
    rewrite Hrun. split; [exact W1|exact (C1 C)].
  - destruct loc as [loc|]; [|split; assumption].
    destruct (by_subject_locator_post self loc W)
      as [t [db1 [Hrun [W1 [C1 _]]]]].
    rewrite Hrun. split; [exact W1|exact (C1 C)].
  - pose proof (same_index_create_association self type scope db) as S.
    split; [exact (wf_same_index S W)|exact (coherent_same_index S C)].
  - pose proof (same_index_add_type self type db) as S.
    split; [exact (wf_same_index S W)|exact (coherent_same_index S C)].
  - pose proof (same_index_create_occurrence self type value scope datatype
                  db) as S.
    split; [exact (wf_same_index S W)|exact (coherent_same_index S C)].
  - pose proof (same_index_create_role self role_type player db) as S.
    split; [exact (wf_same_index S W)|exact (coherent_same_index S C)].
Qed.

(** * Further properties of the three modules *)

(** ** Subject locators *)

Lemma owns_sl_bind (t t' : Topic) (reference reference' : string) (db : DB) :
  owns_subject_locator (bind_subject_locator t reference db) t' reference' <->
  owns_subject_locator db t' reference' \/
  (topic_id t' = topic_id t /\ reference' = reference).
Proof.
  unfold owns_subject_locator. simpl. split.
  - intros [sl [Hsl [Hid Haddr]]]. apply in_app_or in Hsl.
    destruct Hsl as [Hsl|[<-|[]]].
    + left. exists sl. auto.
    + right. simpl in *. auto.
  - intros [[sl [Hsl H]]|[Hid ->]].
    + exists sl. split; [apply in_or_app; left; exact Hsl|exact H].
    + eexists. split; [apply in_or_app; right; left; reflexivity|].
      simpl. auto.
Qed.

Lemma get_subject_locators_bind (t : Topic) (reference : string) (db : DB) :
  map sl_address
    (get_subject_locators t (bind_subject_locator t reference db)) =
  map sl_address (get_subject_locators t db) ++ [reference].
Proof.
  unfold get_subject_locators. simpl. rewrite filter_app. simpl.
  rewrite Nat.eqb_refl, map_app. reflexivity.
Qed.

Lemma sl_rows_unowned (self : TopicMap) (db : DB) (reference : string) :
  (forall t, topic_of self db t -> ~ owns_subject_locator db t reference) ->
  sl_rows self reference db = [].
Proof.
  intros H. apply no_row. intros t Ht. apply in_sl_rows in Ht.
  destruct Ht as [Ht Ho]. exact (H t Ht Ho).
Qed.

(** What [create_topic_by_subject_locator] leaves behind, with the owner. *)
Lemma by_subject_locator_owner (self : TopicMap) (loc : Locator) (db : DB) :
  wf db ->
  exists t db1,
    create_topic_by_subject_locator self (Some loc) db = (Return t, db1) /\
    wf db1 /\ topic_of self db1 t /\
    owns_subject_locator db1 t (to_external_form loc).
Proof.
  intros W. pose proof W as [I U].
  destruct (sl_rows_cases self (to_external_form loc) W)
    as [Esl|[t [Esl [Ht Ho]]]].
  - pose proof (wf_add_topic self W) as W'. pose proof W' as [I' U'].
    pose proof (topic_of_new_topic self db) as Hn.
    assert (Esl' : sl_rows self (to_external_form loc) (add_topic self db)
                   = [])
      by (rewrite sl_rows_add_topic; assumption).
    eexists. eexists. split; [apply by_subject_locator_new; assumption|].
    split; [split|split].
    + apply integrity_bind_subject_locator; [exact I'|apply Hn].
    + eapply unique_bind_subject_locator; eassumption.
    + exact Hn.
    + apply owns_sl_bind. right. auto.
  - exists t, db. split; [apply by_subject_locator_found; exact Esl|].
    auto.
Qed.

(** X1.  [create_topic_by_subject_locator] on a topic map whose identity
    index is well formed: a null locator raises the constraint error and
    writes nothing; the topic of the map that owns the address as a subject
    locator is returned, nothing written; when no topic of the map owns it
    as a subject locator, a topic that was not stored is inserted into the
    map and returned, with the address as its only subject locator and with
    no subject identifier and no item identifier, whether or not another
    topic owns the address as a subject identifier or an item identifier. *)
Theorem create_topic_by_subject_locator_spec (self : TopicMap) (db : DB) :
  wf db ->
  create_topic_by_subject_locator self None db =
    (Raise ModelConstraintException, db) /\
  forall loc : Locator,
    let reference := to_external_form loc in
    (forall t, topic_of self db t -> owns_subject_locator db t reference ->
       create_topic_by_subject_locator self (Some loc) db = (Return t, db)) /\
    ((forall t, topic_of self db t -> ~ owns_subject_locator db t reference) ->
     exists t db',
       create_topic_by_subject_locator self (Some loc) db = (Return t, db') /\
       ~ In t (rows (topics db)) /\
       rows (topics db') = rows (topics db) ++ [t] /\
       topic_map t = tm_id self /\
       map sl_address (get_subject_locators t db') = [reference] /\
       get_subject_identifiers t db' = [] /\
       get_item_identifiers t db' = [] /\
       subject_identifiers db' = subject_identifiers db /\
       item_identifiers db' = item_identifiers db).
Proof.
  intros W. pose proof W as [I U]. split; [reflexivity|].
  intros loc reference. split.
  - intros t Ht Ho. apply by_subject_locator_found.
    apply sl_rows_owner; assumption.
  - intros Hnone. pose proof (sl_rows_unowned Hnone) as Esl.
    destruct (new_topic_bare self I) as [Bsi [Bsl Bii]].
    exists (new_topic self db).
    exists (bind_subject_locator (new_topic self db) reference
              (add_topic self db)).
    split; [apply by_subject_locator_new; assumption|].
    split; [apply new_topic_not_in; exact I|].
    split; [reflexivity|]. split; [reflexivity|].
    split.
    + rewrite get_subject_locators_bind.
      change (get_subject_locators (new_topic self db) (add_topic self db))
        with (get_subject_locators (new_topic self db) db).
      rewrite Bsl. reflexivity.
    + split; [exact Bsi|]. split; [exact Bii|]. split; reflexivity.
Qed.

(** X1 on the sample map in which topic 1 owns the address as an item
    identifier: the map is well formed, no topic owns the address as a
    subject locator, and the call makes a second topic. *)
Lemma create_topic_by_subject_locator_spec_witness :
  wf ex_db_ii /\
  owns_item_identifier ex_db_ii (ex_topic 1 1) (to_external_form ex_loc) /\
  exists t db',
    create_topic_by_subject_locator ex_tm (Some ex_loc) ex_db_ii =
      (Return t, db') /\
    ~ In t (rows (topics ex_db_ii)) /\
    map sl_address (get_subject_locators t db') = [to_external_form ex_loc].
Proof.
  split; [exact wf_ex_db_ii|]. split.
  - eexists. split; [left; reflexivity|]. split; [reflexivity|].
    left. reflexivity.
  - destruct (create_topic_by_subject_locator_spec ex_tm wf_ex_db_ii)
      as [_ Hloc].
    destruct (Hloc ex_loc) as [_ Hnew].
    destruct Hnew as [t [db' [Hrun [Hfresh [_ [_ [Hsl _]]]]]]];
      [intros t _ [sl [[] _]]|].
    exists t, db'. auto.
Defined.

(** X2.  On a topic map whose identity index is well formed, each of
    [create_topic_by_subject_locator] and [create_topic_by_item_identifier]
    called on a non-null locator returns a topic that the map then stores
    as an owner of the address, in the factory's kind; called a second time
    in succession it returns the same topic and writes nothing. *)
Theorem factories_idempotent (self : TopicMap) (db : DB) :
  wf db ->
  forall loc : Locator,
    (exists t db1,
       create_topic_by_subject_locator self (Some loc) db = (Return t, db1) /\
       topic_of self db1 t /\
       owns_subject_locator db1 t (to_external_form loc) /\
       create_topic_by_subject_locator self (Some loc) db1 =
         (Return t, db1)) /\
    (exists t db1,
       create_topic_by_item_identifier self (Some loc) db = (Return t, db1) /\
       topic_of self db1 t /\
       owns_item_identifier db1 t (to_external_form loc) /\
       create_topic_by_item_identifier self (Some loc) db1 =
         (Return t, db1)).
Proof.
  intros W loc. split.
  - destruct (by_subject_locator_owner self loc W)
      as [t [db1 [Hrun [W1 [Ht Ho]]]]].
    exists t, db1. split; [exact Hrun|]. split; [exact Ht|].
    split; [exact Ho|].
    apply by_subject_locator_found. apply sl_rows_owner; assumption.
  - destruct (by_item_identifier_post self loc W)
      as [t [db1 [Hrun [W1 [_ [Ht Ho]]]]]].
    exists t, db1. split; [exact Hrun|]. split; [exact Ht|].
    split; [exact Ho|].
    apply by_item_identifier_found. apply ii_rows_owner; assumption.
Qed.

(** X2 on the empty topic map. *)
Lemma factories_idempotent_witness :
  wf empty_db /\
  (exists t db1,
     create_topic_by_subject_locator ex_tm (Some ex_loc) empty_db =
       (Return t, db1) /\
     topic_of ex_tm db1 t /\
     owns_subject_locator db1 t (to_external_form ex_loc) /\
     create_topic_by_subject_locator ex_tm (Some ex_loc) db1 =
       (Return t, db1)) /\
  (exists t db1,
     create_topic_by_item_identifier ex_tm (Some ex_loc) empty_db =
       (Return t, db1) /\
     topic_of ex_tm db1 t /\
     owns_item_identifier db1 t (to_external_form ex_loc) /\
     create_topic_by_item_identifier ex_tm (Some ex_loc) db1 =
       (Return t, db1)).
Proof.
  split; [exact wf_empty|].
  exact (factories_idempotent ex_tm wf_empty ex_loc).
Defined.

(** ** Lookups *)

Lemma get_by_si_rows (self : TopicMap) (loc : Locator) (db : DB) :
  get_topic_by_subject_identifier self (Some loc) db =
  (match si_rows self (to_external_form loc) db with
   | [] => Return None
   | [t] => Return (Some t)
   | _ :: _ :: _ => Raise Topic_MultipleObjectsReturned
   end, db).
Proof.
  unfold get_topic_by_subject_identifier, try_except_DoesNotExist, bind,
    query, get.
  destruct (si_rows self (to_external_form loc) db) as [|a [|b l]];
    reflexivity.
Qed.

Lemma get_by_sl_rows (self : TopicMap) (loc : Locator) (db : DB) :
  get_topic_by_subject_locator self (Some loc) db =
  (match sl_rows self (to_external_form loc) db with
   | [] => Return None
   | [t] => Return (Some t)
   | _ :: _ :: _ => Raise Topic_MultipleObjectsReturned
   end, db).
Proof.
  unfold get_topic_by_subject_locator, try_except_DoesNotExist, bind,
    query, get.
  destruct (sl_rows self (to_external_form loc) db) as [|a [|b l]];
    reflexivity.
Qed.

(** The outcome of a lookup, from the rows it reads. *)
Lemma lookup_outcome (rows : list Topic) (P : Topic -> Prop) (U : Prop) :
  (forall t, In t rows <-> P t) ->
  (U -> List.length rows <= 1) ->
  let r := match rows with
           | [] => Return None
           | [t] => Return (Some t)
           | _ :: _ :: _ => Raise Topic_MultipleObjectsReturned
           end in
  (r = Return None <-> forall t, ~ P t) /\
  (forall t, r = Return (Some t) -> P t) /\
  (forall e, r = Raise e -> e = Topic_MultipleObjectsReturned /\ ~ U).
Proof.
  intros Hin Hlen. destruct rows as [|a [|b l]]; simpl; split; [|split| |split| |split].
  - split; [|reflexivity]. intros _ t Ht. apply Hin in Ht. exact Ht.
  - intros t H. discriminate H.
  - intros e H. discriminate H.
  - split; [intros H; discriminate H|].
    intros H. exfalso. apply (H a). apply Hin. left. reflexivity.
  - intros t H. injection H as <-. apply Hin. left. reflexivity.
  - intros e H. discriminate H.
  - split; [intros H; discriminate H|].
    intros H. exfalso. apply (H a). apply Hin. left. reflexivity.
  - intros t H. discriminate H.
  - intros e H. injection H as <-. split; [reflexivity|].
    intros HU. specialize (Hlen HU). simpl in Hlen. lia.
Qed.

(** X3.  [get_topic_by_subject_identifier] and
    [get_topic_by_subject_locator] never write.  Each raises
    [AttributeError] exactly when its argument is [None]; for a locator it
    returns [None] exactly when no topic of the map owns the address in its
    kind, and a topic it returns is a topic of the map that owns the
    address; and the only other exception it lets out is
    [MultipleObjectsReturned], which it raises only on a store where the
    identifiers are not unique. *)
Theorem lookups_outcome (self : TopicMap) (loc : option Locator) (db : DB) :
  (snd (get_topic_by_subject_identifier self loc db) = db /\
   (fst (get_topic_by_subject_identifier self loc db) = Raise AttributeError
    <-> loc = None) /\
   (forall e, fst (get_topic_by_subject_identifier self loc db) = Raise e ->
              e = AttributeError \/
              (e = Topic_MultipleObjectsReturned /\
               ~ unique_identifiers db)) /\
   (forall l, loc = Some l ->
      (fst (get_topic_by_subject_identifier self loc db) = Return None <->
       forall t, ~ (topic_of self db t /\
                    owns_subject_identifier db t (to_external_form l))) /\
      (forall t, fst (get_topic_by_subject_identifier self loc db) =
                   Return (Some t) ->
                 topic_of self db t /\
                 owns_subject_identifier db t (to_external_form l))))
  /\
  (snd (get_topic_by_subject_locator self loc db) = db /\
   (fst (get_topic_by_subject_locator self loc db) = Raise AttributeError
    <-> loc = None) /\
   (forall e, fst (get_topic_by_subject_locator self loc db) = Raise e ->
              e = AttributeError \/
              (e = Topic_MultipleObjectsReturned /\
               ~ unique_identifiers db)) /\
   (forall l, loc = Some l ->
      (fst (get_topic_by_subject_locator self loc db) = Return None <->
       forall t, ~ (topic_of self db t /\
                    owns_subject_locator db t (to_external_form l))) /\
      (forall t, fst (get_topic_by_subject_locator self loc db) =
                   Return (Some t) ->
                 topic_of self db t /\
                 owns_subject_locator db t (to_external_form l)))).
Proof.
  destruct loc as [l|].
  - split.
    + rewrite get_by_si_rows.
      destruct (@lookup_outcome (si_rows self (to_external_form l) db)
                  (fun t => topic_of self db t /\
                            owns_subject_identifier db t (to_external_form l))
                  (unique_identifiers db))
        as (Hnone & Hsome & Hraise).
      * intros t. apply in_si_rows.
      * intros U. apply (U self (to_external_form l)).
      * cbn [fst snd] in *. split; [reflexivity|]. split; [|split].
        -- split; [|intros H; discriminate H].
           intros H. destruct (Hraise _ H) as [H' _]. discriminate H'.
        -- intros e H. right. apply Hraise. exact H.
        -- intros l' Hl. injection Hl as <-. split; assumption.
    + rewrite get_by_sl_rows.
      destruct (@lookup_outcome (sl_rows self (to_external_form l) db)
                  (fun t => topic_of self db t /\
                            owns_subject_locator db t (to_external_form l))
                  (unique_identifiers db))
        as (Hnone & Hsome & Hraise).
      * intros t. apply in_sl_rows.
      * intros U. apply (U self (to_external_form l)).
      * cbn [fst snd] in *. split; [reflexivity|]. split; [|split].
        -- split; [|intros H; discriminate H].
           intros H. destruct (Hraise _ H) as [H' _]. discriminate H'.
        -- intros e H. right. apply Hraise. exact H.
        -- intros l' Hl. injection Hl as <-. split; assumption.
  - split; (split; [reflexivity|]; split; [|split]);
      first [ split; reflexivity
            | intros e H; left; injection H as <-; reflexivity
            | intros l' Hl; discriminate Hl ].
Qed.

(** X4.  On a topic map whose identity index is well formed, the topic
    [create_topic_by_subject_identifier] returns for a locator is the one
    [get_topic_by_subject_identifier] then finds for it, and likewise for
    subject locators. *)
Theorem lookup_after_factory (self : TopicMap) (db : DB) :
  wf db ->
  forall loc : Locator,
    (exists t db1,
       create_topic_by_subject_identifier self (Some loc) db =
         (Return t, db1) /\
       get_topic_by_subject_identifier self (Some loc) db1 =
         (Return (Some t), db1)) /\
    (exists t db1,
       create_topic_by_subject_locator self (Some loc) db = (Return t, db1) /\
       get_topic_by_subject_locator self (Some loc) db1 =
         (Return (Some t), db1)).
Proof.
  intros W loc. split.
  - destruct (by_subject_identifier_post self loc W)
      as [t [db1 [Hrun [W1 [_ [Ht Ho]]]]]].
    exists t, db1. split; [exact Hrun|].
    rewrite get_by_si_rows, (@si_rows_owner self db1 _ W1 t Ht Ho).
    reflexivity.
  - destruct (by_subject_locator_owner self loc W)
      as [t [db1 [Hrun [W1 [Ht Ho]]]]].
    exists t, db1. split; [exact Hrun|].
    rewrite get_by_sl_rows, (@sl_rows_owner self db1 _ W1 t Ht Ho).
    reflexivity.
Qed.

(** X4 on the empty topic map. *)
Lemma lookup_after_factory_witness :
  wf empty_db /\
  exists t db1,
    create_topic_by_subject_identifier ex_tm (Some ex_loc) empty_db =
      (Return t, db1) /\
    get_topic_by_subject_identifier ex_tm (Some ex_loc) db1 =
      (Return (Some t), db1).
Proof.
  split; [exact wf_empty|].
  exact (proj1 (lookup_after_factory ex_tm wf_empty ex_loc)).
Defined.

(** X5.  The lookup by subject identifier reads subject identifiers only.
    On a well-formed topic map in which no topic owns the address as a
    subject identifier, [create_topic_by_item_identifier] returns a topic
    that owns the address as an item identifier, and
    [get_topic_by_subject_identifier] for the same locator still returns
    [None]. *)
Theorem lookup_ignores_item_identifier (self : TopicMap) (db : DB) :
  wf db ->
  forall loc : Locator,
    (forall t, topic_of self db t ->
               ~ owns_subject_identifier db t (to_external_form loc)) ->
    exists t db1,
      create_topic_by_item_identifier self (Some loc) db = (Return t, db1) /\
      topic_of self db1 t /\
      owns_item_identifier db1 t (to_external_form loc) /\
      get_topic_by_subject_identifier self (Some loc) db1 =
        (Return None, db1).
Proof.
  intros W loc Hnone. pose proof W as [I U].
  pose proof (si_rows_unowned Hnone) as Esi.
  destruct (ii_rows_cases self (to_external_form loc) W)
    as [Eii|[t [Eii [Ht Ho]]]].
  - exists (new_topic self db).
    exists (bind_item_identifier self (new_topic self db)
              (to_external_form loc) (add_topic self db)).
    split; [apply by_item_identifier_new; assumption|].
    split; [apply topic_of_new_topic|]. split.
    + apply owns_ii_bind; [apply integrity_add_topic; exact I|]. right. auto.
    + rewrite get_by_si_rows.
      change (si_rows self (to_external_form loc)
                (bind_item_identifier self (new_topic self db)
                   (to_external_form loc) (add_topic self db)))
        with (si_rows self (to_external_form loc) (add_topic self db)).
      rewrite si_rows_add_topic by exact I. rewrite Esi. reflexivity.
  - exists t, db. split; [apply by_item_identifier_found; exact Eii|].
    split; [exact Ht|]. split; [exact Ho|].
    rewrite get_by_si_rows, Esi. reflexivity.
Qed.

(** X5 on the empty topic map. *)
Lemma lookup_ignores_item_identifier_witness :
  wf empty_db /\
  exists t db1,
    create_topic_by_item_identifier ex_tm (Some ex_loc) empty_db =
      (Return t, db1) /\
    owns_item_identifier db1 t (to_external_form ex_loc) /\
    get_topic_by_subject_identifier ex_tm (Some ex_loc) db1 =
      (Return None, db1).
Proof.
  split; [exact wf_empty|].
  destruct (@lookup_ignores_item_identifier ex_tm _ wf_empty ex_loc)
    as [t [db1 [Hrun [_ [Ho Hget]]]]]; [intros t [[] _]|].
  exists t, db1. auto.
Defined.

(** ** What a factory writes *)

Lemma factory_steps (self : TopicMap) (loc : option Locator) (db : DB) :
  wf db ->
  factory_step self db (snd (create_topic self db)) /\
  factory_step self db (snd (create_topic_by_item_identifier self loc db)) /\
  factory_step self db (snd (create_topic_by_subject_identifier self loc db))
  /\
  factory_step self db (snd (create_topic_by_subject_locator self loc db)).
Proof.
  intros W. pose proof W as [I U].
  split; [apply step_new|].
  destruct loc as [loc|]; [|repeat split; apply step_none].
  destruct (si_rows_cases self (to_external_form loc) W)
    as [Esi|[t1 [Esi [Ht1 Ho1]]]];
  destruct (ii_rows_cases self (to_external_form loc) W)
    as [Eii|[t2 [Eii [Ht2 Ho2]]]];
  destruct (sl_rows_cases self (to_external_form loc) W)
    as [Esl|[t3 [Esl [Ht3 Ho3]]]];
  (split; [|split]);
  first
    [ rewrite (by_item_identifier_found self loc db Eii)
    | rewrite (by_item_identifier_alias self loc I Eii Esi)
    | rewrite (by_item_identifier_new self loc I Eii Esi)
    | rewrite (by_subject_identifier_found self loc db Esi)
    | rewrite (by_subject_identifier_alias self loc I Esi Eii)
    | rewrite (by_subject_identifier_new self loc I Esi Eii)
    | rewrite (by_subject_locator_found self loc db Esl)
    | rewrite (by_subject_locator_new self loc I Esl) ];
  simpl;
  first [ apply step_none | apply step_new_si | apply step_new_ii
        | apply step_new_sl | apply step_bind_si; assumption
        | apply step_bind_ii; assumption ].
Qed.

Lemma extends_refl (db : DB) : extends db db.
Proof. repeat split; auto. Qed.

Lemma extends_trans (db1 db2 db3 : DB) :
  extends db1 db2 -> extends db2 db3 -> extends db1 db3.
Proof.
  intros (A1 & A2 & A3 & A4) (B1 & B2 & B3 & B4). repeat split; auto.
Qed.

Lemma extends_add_topic (self : TopicMap) (db : DB) :
  extends db (add_topic self db).
Proof.
  repeat split; auto. intros t Ht. simpl. apply in_or_app. left. exact Ht.
Qed.

Lemma extends_bind_subject_identifier (t : Topic) (reference : string)
  (db : DB) :
  extends db (bind_subject_identifier t reference db).
Proof.
  repeat split; auto. intros t' r H. apply owns_si_bind. left. exact H.
Qed.

Lemma extends_bind_subject_locator (t : Topic) (reference : string) (db : DB) :
  extends db (bind_subject_locator t reference db).
Proof.
  repeat split; auto. intros t' r H. apply owns_sl_bind. left. exact H.
Qed.

Lemma extends_bind_item_identifier (self : TopicMap) (t : Topic)
  (reference : string) (db : DB) :
  integrity db -> extends db (bind_item_identifier self t reference db).
Proof.
  intros I. repeat split; auto.
  intros t' r H. apply owns_ii_bind; [exact I|]. left. exact H.
Qed.

Lemma factory_step_extends (self : TopicMap) (db db1 : DB) :
  integrity db -> factory_step self db db1 -> extends db db1.
Proof.
  intros I [ |t r Ht|t r Ht| |r|r|r].
  - apply extends_refl.
  - apply extends_bind_subject_identifier.
  - apply extends_bind_item_identifier. exact I.
  - apply extends_add_topic.
  - eapply extends_trans; [apply extends_add_topic|].
    apply extends_bind_subject_identifier.
  - eapply extends_trans; [apply extends_add_topic|].
    apply extends_bind_item_identifier. apply integrity_add_topic. exact I.
  - eapply extends_trans; [apply extends_add_topic|].
    apply extends_bind_subject_locator.
Qed.











(** X7.  In every store the methods build from the empty one, two topics
    of one topic map that own one address, both as subject identifier, both
    as item identifier, both as subject locator, or one as subject
    identifier and the other as item identifier, are the same topic. *)
Theorem reachable_identifiers_unique (db : DB) :
  reachable db ->
  forall (self : TopicMap) (reference : string) (t1 t2 : Topic),
    topic_of self db t1 -> topic_of self db t2 ->
    (owns_subject_identifier db t1 reference /\
     owns_subject_identifier db t2 reference) \/
    (owns_item_identifier db t1 reference /\
     owns_item_identifier db t2 reference) \/
    (owns_subject_locator db t1 reference /\
     owns_subject_locator db t2 reference) \/
    (owns_subject_identifier db t1 reference /\
     owns_item_identifier db t2 reference) ->
    t1 = t2.
Proof.
  intros R self reference t1 t2 H1 H2 Ho.
  destruct (reachable_wf_coherent R) as [W C].
  destruct Ho as [[O1 O2]|[[O1 O2]|[[O1 O2]|[O1 O2]]]].
  - pose proof (@si_rows_owner self db reference W t1 H1 O1) as E1.
    pose proof (@si_rows_owner self db reference W t2 H2 O2) as E2.
    congruence.
  - pose proof (@ii_rows_owner self db reference W t1 H1 O1) as E1.
    pose proof (@ii_rows_owner self db reference W t2 H2 O2) as E2.
    congruence.
  - pose proof (@sl_rows_owner self db reference W t1 H1 O1) as E1.
    pose proof (@sl_rows_owner self db reference W t2 H2 O2) as E2.
    congruence.
  - exact (C self reference t1 t2 H1 O1 H2 O2).
Qed.

(** X7 on the store reached by one call of
    [create_topic_by_item_identifier] and one of
    [create_topic_by_subject_identifier] for the same locator. *)
Lemma reachable_identifiers_unique_witness :
  reachable
    (snd (create_topic_by_subject_identifier ex_tm (Some ex_loc) ex_db_ii)) /\
  ex_topic 1 1 = ex_topic 1 1.
Proof.
  assert (R : reachable
                (snd (create_topic_by_subject_identifier ex_tm (Some ex_loc)
                        ex_db_ii))).
  { apply reach_by_subject_identifier. unfold ex_db_ii.
    apply reach_by_item_identifier. apply reach_empty. }
  split; [exact R|].
  apply (@reachable_identifiers_unique _ R ex_tm (to_external_form ex_loc)).
  - split; [left; reflexivity|reflexivity].
  - split; [left; reflexivity|reflexivity].
  - right. right. right. split.
    + eexists. split; [left; reflexivity|]. split; reflexivity.
    + eexists. split; [left; reflexivity|]. split; [reflexivity|].
      left. reflexivity.
Defined.

(** X8.  The topic factories only add.  On a well-formed store, after
    [create_topic] or any of the three factories, with a locator or with
    none, every topic stored before is still stored and every topic still
    owns every subject identifier, item identifier and subject locator it
    owned. *)
Theorem factories_only_add (self : TopicMap) (loc : option Locator) (db : DB) :
  wf db ->
  extends db (snd (create_topic self db)) /\
  extends db (snd (create_topic_by_item_identifier self loc db)) /\
  extends db (snd (create_topic_by_subject_identifier self loc db)) /\
  extends db (snd (create_topic_by_subject_locator self loc db)).
Proof.
  intros W. destruct (factory_steps self loc W) as (S1 & S2 & S3 & S4).
  repeat split; apply (@factory_step_extends self); try apply W; assumption.
Qed.

(** X8 on the sample map with one topic: topic 1 keeps its item identifier
    when the address is bound to it as a subject identifier as well. *)
Lemma factories_only_add_witness :
  wf ex_db_ii /\
  owns_item_identifier
    (snd (create_topic_by_subject_identifier ex_tm (Some ex_loc) ex_db_ii))
    (ex_topic 1 1) (to_external_form ex_loc).
Proof.
  split; [exact wf_ex_db_ii|].
  destruct (factories_only_add ex_tm (Some ex_loc) wf_ex_db_ii)
    as (_ & _ & (_ & _ & Hii & _) & _).
  apply Hii. eexists. split; [left; reflexivity|]. split; [reflexivity|].
  left. reflexivity.
Defined.

(** ** Associations and their scope *)

Lemma m2m_add_iff (l p : pk * pk) (j : m2m) :
  In p (m2m_add l j) <-> In p j \/ p = l.
Proof.
  split.
  - unfold m2m_add. destruct (existsb (pair_eqb l) j); [auto|].
    intros H. apply in_app_or in H. destruct H as [H|[H|[]]]; auto.
  - intros [H| ->]; [|apply m2m_add_In].
    unfold m2m_add. destruct (existsb (pair_eqb l) j); [exact H|].
    apply in_or_app. left. exact H.
Qed.

Lemma pair_eqb_eq (x y : pk * pk) : pair_eqb x y = true <-> x = y.
Proof.
  unfold pair_eqb. rewrite andb_true_iff, !Nat.eqb_eq.
  destruct x, y; simpl. split.
  - intros [-> ->]. reflexivity.
  - intros H. inversion H. auto.
Qed.

Lemma m2m_add_NoDup (l : pk * pk) (j : m2m) : NoDup j -> NoDup (m2m_add l j).
Proof.
  intros H. unfold m2m_add. destruct (existsb (pair_eqb l) j) eqn:E; [exact H|].
  apply NoDup_app; [exact H|constructor; [intros []|constructor]|].
  intros x Hx [Heq|[]]. subst x.
  assert (existsb (pair_eqb l) j = true).
  { apply existsb_exists. exists l. split; [exact Hx|].
    apply pair_eqb_eq. reflexivity. }
  congruence.
Qed.

(** The loop over the scope always returns, and writes the scope relation
    only. *)
Lemma scope_add_all_run (association : Association) (scope : list Topic)
  (db : DB) :
  exists j,
    scope_add_all association scope db =
      (Return tt, set_association_scope j db) /\
    (forall p, In p j <->
               In p (association_scope db) \/
               exists theme, In theme scope /\
                             p = (association_id association, topic_id theme))
    /\
    (NoDup (association_scope db) -> NoDup j).
Proof.
  revert db. induction scope as [|topic rest IH]; intros db.
  - exists (association_scope db). split; [destruct db; reflexivity|].
    split; [|auto]. intros p. split; [auto|].
    intros [H|[theme [[] _]]]. exact H.
  - destruct (IH (set_association_scope
                    (m2m_add (association_id association, topic_id topic)
                       (association_scope db)) db))
      as [j [Hrun [Hin Hnd]]].
    exists j. split; [|split].
    + simpl. unfold bind, exec. rewrite Hrun. reflexivity.
    + intros p. rewrite Hin. simpl. rewrite m2m_add_iff. split.
      * intros [[H| ->]|[theme [Ht ->]]]; [auto| |].
        -- right. exists topic. auto.
        -- right. exists theme. auto.
      * intros [H|[theme [[<-|Ht] ->]]]; [auto|auto|].
        right. exists theme. auto.
    + intros H. apply Hnd. simpl. apply m2m_add_NoDup. exact H.
Qed.

(** X9.  [create_association]: a null type raises the constraint error and
    writes nothing.  Otherwise the call returns; the association has the
    next key, the given type and this topic map; it is the last of
    [get_associations] of this map and no other map's associations change;
    the scope relation gains exactly the pairs of the association with the
    themes given, none for an omitted scope, and no pair twice; an omitted
    scope and an empty one give the same result; and no topic and no
    identifier is written. *)
Theorem create_association_spec (self : TopicMap) (db : DB) :
  (forall scope,
     create_association self None scope db =
       (Raise ModelConstraintException, db)) /\
  (forall type,
     create_association self (Some type) None db =
     create_association self (Some type) (Some []) db) /\
  (forall type scope,
     exists a db',
       create_association self (Some type) scope db = (Return a, db') /\
       a = {| association_id := next_pk (associations db);
              association_type_id := topic_id type;
              association_topic_map := tm_id self |} /\
       get_associations self db' = get_associations self db ++ [a] /\
       (forall self', tm_id self' <> tm_id self ->
                      get_associations self' db' = get_associations self' db)
       /\
       (forall p,
          In p (association_scope db') <->
          In p (association_scope db) \/
          exists theme,
            In theme (match scope with None => [] | Some s => s end) /\
            p = (association_id a, topic_id theme)) /\
       (NoDup (association_scope db) -> NoDup (association_scope db')) /\
       same_index db db').
Proof.
  split; [reflexivity|]. split; [reflexivity|].
  intros type scope.
  unfold create_association, bind, save_association, ret.
  cbn [insert].
  match goal with
  | |- context [scope_add_all ?a ?s ?d] =>
      destruct (scope_add_all_run a s d) as [j [Hrun [Hin Hnd]]];
      rewrite Hrun
  end.
  eexists. eexists. split; [reflexivity|]. split; [reflexivity|].
  split; [|split; [|split; [|split]]].
  - unfold get_associations. simpl. rewrite filter_app. simpl.
    rewrite Nat.eqb_refl. reflexivity.
  - intros self' Hne. unfold get_associations. simpl. rewrite filter_app.
    simpl. apply Nat.eqb_neq in Hne. rewrite Nat.eqb_sym, Hne.
    apply app_nil_r.
  - intros p. simpl. rewrite Hin. simpl. reflexivity.
  - exact Hnd.
  - repeat split.
Qed.

(** ** Types of a topic *)

Lemma in_get_types_iff (self t : Topic) (db : DB) :
  In t (get_types self db) <->
  In t (rows (topics db)) /\ In (topic_id self, topic_id t) (topic_types db).
Proof.
  unfold get_types. rewrite in_flat_map. split.
  - intros [[a b] [Hl Ht]]. apply filter_In in Hl. apply filter_In in Ht.
    destruct Hl as [Hl Ha], Ht as [Ht Hb]. simpl in *.
    apply Nat.eqb_eq in Ha. apply Nat.eqb_eq in Hb. subst. auto.
  - intros [Ht Hl]. exists (topic_id self, topic_id t). split.
    + apply filter_In. split; [exact Hl|]. apply Nat.eqb_refl.
    + apply filter_In. split; [exact Ht|]. apply Nat.eqb_refl.
Qed.

Lemma m2m_remove_iff (l p : pk * pk) (j : m2m) :
  In p (m2m_remove l j) <-> In p j /\ p <> l.
Proof.
  unfold m2m_remove. rewrite filter_In, negb_true_iff.
  split; intros [H1 H2]; (split; [exact H1|]).
  - intros ->. rewrite (proj2 (pair_eqb_eq l l) eq_refl) in H2. discriminate.
  - destruct (pair_eqb l p) eqn:E; [|reflexivity].
    apply pair_eqb_eq in E. congruence.
Qed.

Lemma m2m_remove_absent (l : pk * pk) (j : m2m) :
  ~ In l j -> m2m_remove l j = j.
Proof.
  intros H. unfold m2m_remove. induction j as [|x j IH]; [reflexivity|].
  simpl. destruct (pair_eqb l x) eqn:E.
  - apply pair_eqb_eq in E. subst x. exfalso. apply H. left. reflexivity.
  - simpl. f_equal. apply IH. intros Hin. apply H. right. exact Hin.
Qed.

(** X10.  [add_type] keeps the type relation a set and lets a topic be its
    own type: adding a topic to itself always returns, a second [add_type]
    of the same type writes nothing, and a type relation without repeated
    pairs stays so. *)
Theorem add_type_set (self type : Topic) (db : DB) :
  (exists db', add_type self self db = (Return tt, db') /\
               In (topic_id self, topic_id self) (topic_types db')) /\
  (forall db1, add_type self type db = (Return tt, db1) ->
               add_type self type db1 = (Return tt, db1)) /\
  (NoDup (topic_types db) -> NoDup (topic_types (snd (add_type self type db)))).
Proof.
  split; [|split].
  - unfold add_type. rewrite Nat.eqb_refl. simpl. eexists.
    split; [reflexivity|]. apply m2m_add_In.
  - unfold add_type.
    destruct (negb (topic_map self =? topic_map type)); simpl;
      [intros db1 H; discriminate H|].
    unfold exec. intros db1 H. injection H as <-. simpl.
    f_equal. unfold m2m_add at 1.
    assert (E : existsb (pair_eqb (topic_id self, topic_id type))
                  (m2m_add (topic_id self, topic_id type) (topic_types db))
                = true).
    { apply existsb_exists. exists (topic_id self, topic_id type).
      split; [apply m2m_add_In|apply pair_eqb_eq; reflexivity]. }
    rewrite E. reflexivity.
  - intros H. unfold add_type.
    destruct (negb (topic_map self =? topic_map type)); simpl; [exact H|].
    apply m2m_add_NoDup. exact H.
Qed.

(** X11.  [remove_type] always returns and checks no topic map.  It deletes
    the pair of the topic and the type and no other pair, so the type is no
    longer among [get_types] and every other type still is; removing a type
    the topic does not have writes nothing; and removing a type just added,
    that the topic did not have before, gives back the database as it
    was. *)
Theorem remove_type_spec (self topic_type : Topic) (db : DB) :
  (exists db',
     remove_type self topic_type db = (Return tt, db') /\
     (forall p, In p (topic_types db') <->
                In p (topic_types db) /\
                p <> (topic_id self, topic_id topic_type)) /\
     (forall t, In t (get_types self db') <->
                In t (get_types self db) /\
                topic_id t <> topic_id topic_type) /\
     same_index db db') /\
  (~ In (topic_id self, topic_id topic_type) (topic_types db) ->
   remove_type self topic_type db = (Return tt, db) /\
   forall db1, add_type self topic_type db = (Return tt, db1) ->
               remove_type self topic_type db1 = (Return tt, db)).
Proof.
  split.
  - eexists. split; [reflexivity|]. split; [|split; [|repeat split]].
    + intros p. simpl. apply m2m_remove_iff.
    + intros t. rewrite !in_get_types_iff. simpl. rewrite m2m_remove_iff.
      split.
      * intros [Ht [Hl Hne]]. repeat split; try assumption.
        intros Heq. apply Hne. rewrite Heq. reflexivity.
      * intros [[Ht Hl] Hne]. repeat split; try assumption.
        intros Heq. apply Hne. inversion Heq. reflexivity.
  - intros Habsent. split.
    + unfold remove_type, exec. rewrite (@m2m_remove_absent _ _ Habsent).
      destruct db; reflexivity.
    + unfold add_type.
      destruct (negb (topic_map self =? topic_map topic_type)); simpl;
        [intros db1 H; discriminate H|].
      unfold exec. intros db1 H. injection H as <-.
      unfold remove_type, exec. simpl.
      rewrite (@m2m_add_new _ _ Habsent). unfold m2m_remove.
      rewrite filter_app. simpl.
      rewrite (proj2 (pair_eqb_eq _ _) eq_refl). simpl. rewrite app_nil_r.
      fold (m2m_remove (topic_id self, topic_id topic_type) (topic_types db)).
      rewrite (@m2m_remove_absent _ _ Habsent). destruct db; reflexivity.
Qed.

(** X11 on the sample map with one topic, which has no type: adding topic 1
    as its own type and removing it again gives the map back. *)
Lemma remove_type_spec_witness :
  ~ In (1, 1) (topic_types ex_db_ii) /\
  forall db1, add_type (ex_topic 1 1) (ex_topic 1 1) ex_db_ii =
                (Return tt, db1) ->
              remove_type (ex_topic 1 1) (ex_topic 1 1) db1 =
                (Return tt, ex_db_ii).
Proof.
  assert (H : ~ In (topic_id (ex_topic 1 1), topic_id (ex_topic 1 1))
                (topic_types ex_db_ii)) by (intros []).
  split; [exact H|].
  exact (proj2 (proj2 (remove_type_spec (ex_topic 1 1) (ex_topic 1 1)
                         ex_db_ii) H)).
Defined.

(** ** Occurrences and roles *)

(** X12.  [create_occurrence] returns the occurrence with the value it was
    given, and [get_occurrences] of its topic, with no type given and with
    its own type given, gains one row at the end: the row of that
    occurrence, with its key, type, datatype and topic and a text value.
    For a string value the row is the occurrence returned; for a locator
    value it is not, the row holding text.  The occurrences of another
    topic and those of another type do not change; the scope argument has no
    effect on what is returned or written; and no topic and no identifier is
    written. *)
Theorem create_occurrence_get_occurrences (self type : Topic) (value : Value)
  (scope : option (list Topic)) (datatype : option Locator) (db : DB) :
  exists o row db',
    create_occurrence self type value scope datatype db = (Return o, db') /\
    occurrence_id o = next_pk (occurrences db) /\
    occurrence_topic_map o = topic_map self /\
    occurrence_value o = value /\
    stored_as o row /\
    (forall l, value = LocatorValue l -> row <> o) /\
    get_occurrences self None db' = get_occurrences self None db ++ [row] /\
    get_occurrences self (Some type) db' =
      get_occurrences self (Some type) db ++ [row] /\
    (forall other, topic_id other <> topic_id self ->
       forall ty, get_occurrences other ty db' = get_occurrences other ty db) /\
    (forall ty, topic_id ty <> topic_id type ->
       get_occurrences self (Some ty) db' = get_occurrences self (Some ty) db)
    /\
    (forall scope',
       create_occurrence self type value scope' datatype db =
         (Return o, db')) /\
    same_index db db'.
Proof.
  eexists. eexists. eexists. split; [reflexivity|].
  split; [reflexivity|]. split; [reflexivity|]. split; [reflexivity|].
  split; [apply stored_as_row|].
  split; [|split; [|split; [|split; [|split; [|split]]]]].
  - intros l -> H. apply (f_equal occurrence_value) in H. discriminate H.
  - unfold get_occurrences. simpl. rewrite filter_app. simpl.
    rewrite Nat.eqb_refl. reflexivity.
  - unfold get_occurrences. simpl. rewrite !filter_app. simpl.
    rewrite Nat.eqb_refl. simpl. rewrite Nat.eqb_refl. reflexivity.
  - intros other Hne ty. unfold get_occurrences. simpl. rewrite filter_app.
    simpl. apply Nat.eqb_neq in Hne. rewrite Nat.eqb_sym, Hne.
    rewrite app_nil_r. reflexivity.
  - intros ty Hne. unfold get_occurrences. simpl. rewrite !filter_app.
    simpl. rewrite Nat.eqb_refl. simpl. apply Nat.eqb_neq in Hne.
    rewrite Nat.eqb_sym, Hne. rewrite app_nil_r. reflexivity.
  - intros scope'. reflexivity.
  - repeat split.
Qed.

Lemma in_get_role_types (self : Association) (db : DB) (t : Topic) :
  In t (get_role_types self db) <->
  In t (rows (topics db)) /\
  exists r, In r (rows (roles db)) /\
            role_association_id r = association_id self /\
            role_type_id r = topic_id t.
Proof.
  unfold get_role_types. rewrite nodup_In, in_flat_map. split.
  - intros [r [Hr Ht]]. apply filter_In in Hr. apply filter_In in Ht.
    destruct Hr as [Hr Ha], Ht as [Ht Hid].
    apply Nat.eqb_eq in Ha. apply Nat.eqb_eq in Hid.
    split; [exact Ht|]. exists r. auto.
  - intros [Ht [r [Hr [Ha Hid]]]]. exists r. split.
    + apply filter_In. split; [exact Hr|]. apply Nat.eqb_eq. exact Ha.
    + apply filter_In. split; [exact Ht|]. apply Nat.eqb_eq. auto.
Qed.

(** X13.  A role [create_role] makes, with a type and a player given, is in
    the topic map of its association and is the last of [get_roles] of the
    association, with no type given and with its type given; it is the last
    of the roles [get_roles_played] returns for the player, again with and
    without its type; the roles other topics play do not change; its type,
    when a stored topic, is among [get_role_types] of the association,
    which lists no topic twice. *)
Theorem create_role_get_roles (self : Association) (role_type player : Topic)
  (db : DB) :
  exists r db',
    create_role self (Some role_type) (Some player) db = (Return r, db') /\
    role_topic_map r = association_topic_map self /\
    get_roles self None db' = get_roles self None db ++ [r] /\
    get_roles self (Some role_type) db' =
      get_roles self (Some role_type) db ++ [r] /\
    get_roles_played player None None db' =
      (Return (role_players player db ++ [r]), db') /\
    get_roles_played player (Some role_type) None db' =
      (Return
         (filter (fun x => role_type_id x =? topic_id role_type)
            (role_players player db) ++ [r]), db') /\
    (forall other, topic_id other <> topic_id player ->
       role_players other db' = role_players other db) /\
    (In role_type (rows (topics db)) ->
     In role_type (get_role_types self db')) /\
    NoDup (get_role_types self db') /\
    same_index db db'.
Proof.
  eexists. eexists. split; [reflexivity|]. split; [reflexivity|].
  split; [|split; [|split; [|split; [|split; [|split; [|split]]]]]].
  - unfold get_roles. simpl. rewrite filter_app. simpl.
    rewrite Nat.eqb_refl. reflexivity.
  - unfold get_roles. simpl. rewrite !filter_app. simpl.
    rewrite Nat.eqb_refl. simpl. rewrite Nat.eqb_refl. reflexivity.
  - unfold get_roles_played, query, role_players. simpl.
    rewrite filter_app. simpl. rewrite Nat.eqb_refl. reflexivity.
  - unfold get_roles_played, bind, query, ret, role_players, qs_filter.
    simpl. rewrite !filter_app. simpl. rewrite Nat.eqb_refl. simpl.
    rewrite Nat.eqb_refl. simpl. f_equal. f_equal. f_equal.
    apply filter_same. intros x _. apply andb_true_r.
  - intros other Hne. unfold role_players. simpl. rewrite filter_app.
    simpl. apply Nat.eqb_neq in Hne. rewrite Nat.eqb_sym, Hne.
    apply app_nil_r.
  - intros Ht. apply in_get_role_types. split; [exact Ht|].
    eexists. split; [simpl; apply in_or_app; right; left; reflexivity|].
    split; reflexivity.
  - apply NoDup_nodup.
  - repeat split.
Qed.

(** ** Reification *)

Lemma first_readable_none (C : Type) (getattr : string -> outcome C)
  (names : list string) :
  first_readable getattr names = None <->
  forall n, In n names -> exists e, getattr n = Raise e.
Proof.
  induction names as [|a names IH]; simpl.
  - split; [intros _ n []|reflexivity].
  - destruct (getattr a) as [c|e] eqn:E.
    + split; [intros H; discriminate H|].
      intros H. destruct (H a (or_introl eq_refl)) as [e He]. congruence.
    + rewrite IH. split.
      * intros H n [<-|Hn]; [exists e; exact E|apply H; exact Hn].
      * intros H n Hn. apply H. right. exact Hn.
Qed.

Lemma first_readable_some (C : Type) (getattr : string -> outcome C)
  (names : list string) (c : C) :
  first_readable getattr names = Some c <->
  exists before n after,
    names = before ++ n :: after /\ getattr n = Return c /\
    forall m, In m before -> exists e, getattr m = Raise e.
Proof.
  induction names as [|a names IH]; simpl.
  - split; [intros H; discriminate H|].
    intros [before [n [after [H _]]]]. destruct before; discriminate H.
  - destruct (getattr a) as [c'|e] eqn:E.
    + split.
      * intros H. injection H as ->. exists [], a, names.
        split; [reflexivity|]. split; [exact E|intros m []].
      * intros [[|b before] [n [after [H [Hn Hb]]]]].
        -- injection H as -> _. congruence.
        -- injection H as -> _.
           destruct (Hb b (or_introl eq_refl)) as [e He]. congruence.
    + rewrite IH. split.
      * intros [before [n [after [-> [Hn Hb]]]]].
        exists (a :: before), n, after. split; [reflexivity|].
        split; [exact Hn|]. intros m [<-|Hm]; [exists e; exact E|auto].
      * intros [[|b before] [n [after [H [Hn Hb]]]]].
        -- injection H as -> _. congruence.
        -- injection H as _ ->. exists before, n, after.
           split; [reflexivity|]. split; [exact Hn|].
           intros m Hm. apply Hb. right. exact Hm.
Qed.

Lemma first_readable_ext (C : Type) (f g : string -> outcome C)
  (names : list string) :
  (forall n, In n names -> f n = g n) ->
  first_readable f names = first_readable g names.
Proof.
  induction names as [|a names IH]; intros H; simpl; [reflexivity|].
  rewrite (H a (or_introl eq_refl)). destruct (g a); [reflexivity|].
  apply IH. intros n Hn. apply H. right. exact Hn.
Qed.

Lemma first_readable_only (C : Type) (getattr : string -> outcome C)
  (names : list string) (n : string) (c : C) :
  In n names -> getattr n = Return c ->
  (forall m, m <> n -> In m names -> exists e, getattr m = Raise e) ->
  first_readable getattr names = Some c.
Proof.
  induction names as [|a names IH]; intros Hin Hn Hothers; [contradiction|].
  simpl. destruct (string_dec a n) as [->|Hne].
  - rewrite Hn. reflexivity.
  - destruct (Hothers a Hne (or_introl eq_refl)) as [e He]. rewrite He.
    apply IH; [|exact Hn|].
    + destruct Hin as [Heq|Hin]; [congruence|exact Hin].
    + intros m Hm Hin'. apply Hothers; [exact Hm|right; exact Hin'].
Qed.

(** X14.  [get_reified] returns what the first of its six attributes that
    can be read gives, in the order association, name, occurrence, role,
    topic map, variant, and [None] exactly when reading each of the six
    raises, whatever the exception; it reads no other attribute; and when
    one of the six alone can be read, its value is the result. *)
Theorem get_reified_first_readable (C : Type) (getattr : string -> outcome C) :
  (get_reified getattr = None <->
   forall n, In n reifiable_types -> exists e, getattr n = Raise e) /\
  (forall c,
     get_reified getattr = Some c <->
     exists before n after,
       reifiable_types = before ++ n :: after /\ getattr n = Return c /\
       forall m, In m before -> exists e, getattr m = Raise e) /\
  (forall getattr' : string -> outcome C,
     (forall n, In n reifiable_types -> getattr' n = getattr n) ->
     get_reified getattr' = get_reified getattr) /\
  (forall n c,
     In n reifiable_types -> getattr n = Return c ->
     (forall m, m <> n -> In m reifiable_types ->
                exists e, getattr m = Raise e) ->
     get_reified getattr = Some c).
Proof.
  unfold get_reified. split; [apply first_readable_none|].
  split; [intros c; apply first_readable_some|].
  split; [intros g H; apply first_readable_ext; exact H|].
  intros n c. apply first_readable_only.
Qed.

(** ** Names *)

Lemma name_scope_add_all_iff (name : Name) (scope : list Topic) (j : m2m)
  (p : pk * pk) :
  In p (name_scope_add_all name scope j) <->
  In p j \/ exists theme, In theme scope /\ p = (name_id name, topic_id theme).
Proof.
  revert j. induction scope as [|theme rest IH]; intros j; simpl.
  - split; [auto|]. intros [H|[theme [[] _]]]. exact H.
  - rewrite IH, m2m_add_iff. split.
    + intros [[H| ->]|[th [Ht ->]]]; [auto| |].
      * right. exists theme. auto.
      * right. exists th. auto.
    + intros [H|[th [[<-|Ht] ->]]]; [auto|auto|].
      right. exists th. auto.
Qed.

(** X15.  [create_name] with a name type given makes no lookup and writes no
    topic and no identifier; the name has the given value and type, whatever
    topic map the type belongs to, and is the last of [get_names] of its
    topic, with no type given and with its own; the names of other topics do
    not change; the scope relation gains exactly the pairs of the name with
    the themes given, none when the scope is omitted. *)
Theorem create_name_typed (self : Topic) (self_topic_map : TopicMap)
  (value : string) (type : Topic) (scope : option (list Topic)) (s : Store) :
  exists name s1,
    create_name self self_topic_map value (Some type) scope s =
      (Return name, s1) /\
    store_db s1 = store_db s /\
    name = {| name_id := next_pk (names s); name_topic := topic_id self;
              name_value := value; name_topic_map := tm_id self_topic_map;
              name_type_id := topic_id type |} /\
    get_names self None s1 = get_names self None s ++ [name] /\
    get_names self (Some type) s1 = get_names self (Some type) s ++ [name] /\
    (forall other, topic_id other <> topic_id self ->
       forall ty, get_names other ty s1 = get_names other ty s) /\
    (forall p,
       In p (name_scope s1) <->
       In p (name_scope s) \/
       exists theme,
         In theme (match scope with None => [] | Some l => l end) /\
         p = (name_id name, topic_id theme)).
Proof.
  eexists. eexists. split; [reflexivity|]. split; [reflexivity|].
  split; [reflexivity|]. split; [|split; [|split]].
  - unfold get_names. simpl. rewrite filter_app. simpl.
    rewrite Nat.eqb_refl. reflexivity.
  - unfold get_names. simpl. rewrite !filter_app. simpl.
    rewrite Nat.eqb_refl. simpl. rewrite Nat.eqb_refl. reflexivity.
  - intros other Hne ty. unfold get_names. simpl. rewrite filter_app.
    simpl. apply Nat.eqb_neq in Hne. rewrite Nat.eqb_sym, Hne.
    rewrite app_nil_r. reflexivity.
  - intros p. simpl. destruct scope as [l|].
    + apply name_scope_add_all_iff.
    + split; [auto|]. intros [H|[theme [[] _]]]. exact H.
Qed.

(** X16.  [create_name] without a name type, for a topic of a well-formed
    topic map, [self_topic_map] being the topic's own map: the name's type
    is a topic of that map that owns the topic-name subject identifier, the
    name is the last of [get_names] of its topic, and the map stays well
    formed.  Every later [create_name] without a type for a topic of the
    same map, with any value and scope, gives its name that same type and
    writes no topic and no identifier; for a topic of another map it gives
    the name a type of that other map, which is another topic. *)
Theorem create_name_default_type (self : Topic) (self_topic_map : TopicMap)
  (value : string) (scope : option (list Topic)) (s : Store) :
  wf (store_db s) -> tm_id self_topic_map = topic_map self ->
  exists type name s1,
    create_name self self_topic_map value None scope s = (Return name, s1) /\
    topic_of self_topic_map (store_db s1) type /\
    topic_map type = topic_map self /\
    owns_subject_identifier (store_db s1) type topic_name_psi /\
    name_type_id name = topic_id type /\
    name_topic name = topic_id self /\ name_value name = value /\
    get_names self None s1 = get_names self None s ++ [name] /\
    wf (store_db s1) /\
    (forall (self' : Topic) (value' : string) (scope' : option (list Topic)),
       topic_map self' = topic_map self ->
       exists name' s2,
         create_name self' self_topic_map value' None scope' s1 =
           (Return name', s2) /\
         name_type_id name' = topic_id type /\
         store_db s2 = store_db s1) /\
    (forall (self' : Topic) (self_topic_map' : TopicMap) (value' : string)
            (scope' : option (list Topic)),
       tm_id self_topic_map' = topic_map self' ->
       topic_map self' <> topic_map self ->
       exists type' name' s2,
         create_name self' self_topic_map' value' None scope' s1 =
           (Return name', s2) /\
         name_type_id name' = topic_id type' /\
         topic_of self_topic_map' (store_db s2) type' /\
         type' <> type).
Proof.
  intros W Hmap.
  destruct (by_subject_identifier_post self_topic_map
              {| address := topic_name_psi |} W)
    as [type [db1 [Hrun [W1 [_ [Ht Ho]]]]]].
  exists type. unfold create_name. rewrite Hrun. cbn [insert].
  eexists. eexists. split; [reflexivity|]. cbn [store_db].
  split; [exact Ht|]. split; [destruct Ht as [_ Hm]; congruence|].
  split; [exact Ho|]. split; [reflexivity|].
  split; [reflexivity|]. split; [reflexivity|]. split.
  - unfold get_names. simpl. rewrite filter_app. simpl.
    rewrite Nat.eqb_refl. reflexivity.
  - split; [exact W1|]. split.
    + intros self' value' scope' _.
      assert (Hrun' : create_topic_by_subject_identifier self_topic_map
                        (Some {| address := topic_name_psi |}) db1 =
                      (Return type, db1)).
      { apply by_subject_identifier_found.
        apply (@si_rows_owner self_topic_map db1 _ W1 type Ht Ho). }
      rewrite Hrun'. cbn [insert]. eexists. eexists.
      split; [reflexivity|]. split; reflexivity.
    + intros self' self_topic_map' value' scope' Hmap' Hne.
      destruct (by_subject_identifier_post self_topic_map'
                  {| address := topic_name_psi |} W1)
        as [type' [db2 [Hrun' [_ [_ [Ht' _]]]]]].
      exists type'. rewrite Hrun'. cbn [insert]. eexists. eexists.
      split; [reflexivity|]. split; [reflexivity|].
      cbn [store_db]. split; [exact Ht'|].
      intros ->. apply Hne.
      destruct Ht as [_ Hm], Ht' as [_ Hm']. congruence.
Qed.

(** X16 on the store with the empty database and no names, for a topic of
    the topic map with key 1: the first name makes the name type and the
    second name, of another topic of the map, shares it. *)
Lemma create_name_default_type_witness :
  let s0 := {| store_db := empty_db; names := empty_table Name;
               name_scope := [] |} in
  wf (store_db s0) /\ tm_id ex_tm = topic_map (ex_topic 5 1) /\
  exists type name s1,
    create_name (ex_topic 5 1) ex_tm "Name" None None s0 =
      (Return name, s1) /\
    name_type_id name = topic_id type /\
    owns_subject_identifier (store_db s1) type topic_name_psi /\
    exists name' s2,
      create_name (ex_topic 6 1) ex_tm "Other" None None s1 =
        (Return name', s2) /\
      name_type_id name' = topic_id type /\ store_db s2 = store_db s1.
Proof.
  split; [exact wf_empty|]. split; [reflexivity|].
  destruct (@create_name_default_type (ex_topic 5 1) ex_tm "Name" None
              {| store_db := empty_db; names := empty_table Name;
                 name_scope := [] |} wf_empty eq_refl)
    as [type [name [s1 [Hrun [_ [_ [Ho [Hty [_ [_ [_ [_ [Hnext _]]]]]]]]]]]]].
  exists type, name, s1. split; [exact Hrun|]. split; [exact Hty|].
  split; [exact Ho|].
  exact (Hnext (ex_topic 6 1) "Other"%string None eq_refl).
Defined.

(** The topic [create_topic] has just made is not the one
    [create_topic_by_subject_identifier] then returns. *)
Lemma by_subject_identifier_after_create_topic (self : TopicMap)
  (loc : Locator) (db : DB) :
  wf db ->
  exists t db2,
    create_topic_by_subject_identifier self (Some loc) (add_topic self db) =
      (Return t, db2) /\
    topic_id t <> topic_id (new_topic self db) /\
    In (new_topic self db) (rows (topics db2)).
Proof.
  intros W. pose proof W as [I U].
  pose proof (wf_add_topic self W) as W1. pose proof W1 as [I1 U1].
  pose proof (new_topic_in self db) as Hn.
  destruct (si_rows_cases self (to_external_form loc) W1)
    as [Esi|[t [Esi [Ht Ho]]]].
  - destruct (ii_rows_cases self (to_external_form loc) W1)
      as [Eii|[t [Eii [Ht Ho]]]].
    + eexists. eexists.
      split; [apply by_subject_identifier_new; assumption|].
      split; [simpl; lia|]. simpl. apply in_or_app. left. exact Hn.
    + eexists. eexists.
      split; [apply by_subject_identifier_alias; eassumption|].
      split; [|exact Hn].
      change (owns_item_identifier db t (to_external_form loc)) in Ho.
      destruct (owner_exists_ii I Ho) as [t0 [Ht0 <-]].
      apply new_topic_fresh; assumption.
  - exists t, (add_topic self db).
    split; [apply by_subject_identifier_found; exact Esi|].
    split; [|exact Hn].
    change (owns_subject_identifier db t (to_external_form loc)) in Ho.
    destruct (owner_exists_si I Ho) as [t0 [Ht0 <-]].
    apply new_topic_fresh; assumption.
Qed.

(** X17.  On a well-formed topic map where every name belongs to a stored
    topic, a topic just made by [create_topic] has no names; after
    [create_name] on it without a type it has exactly that one name, whose
    topic it is, and the name's type is another topic than the one named;
    the named topic is still stored. *)
Theorem names_of_new_topic (self_topic_map : TopicMap) (value : string)
  (s : Store) :
  wf (store_db s) -> names_fk s ->
  exists parent db1,
    create_topic self_topic_map (store_db s) = (Return parent, db1) /\
    get_names parent None (with_db db1 s) = [] /\
    exists name s2,
      create_name parent self_topic_map value None None (with_db db1 s) =
        (Return name, s2) /\
      get_names parent None s2 = [name] /\
      name_topic name = topic_id parent /\ name_value name = value /\
      name_type_id name <> topic_id parent /\
      In parent (rows (topics (store_db s2))).
Proof.
  intros W F. pose proof W as [I U].
  exists (new_topic self_topic_map (store_db s)).
  exists (add_topic self_topic_map (store_db s)).
  split; [reflexivity|].
  assert (Hnone : filter
                    (fun n => name_topic n =?
                              topic_id (new_topic self_topic_map (store_db s)))
                    (rows (names s)) = []).
  { apply filter_none. intros n Hn. apply Nat.eqb_neq.
    destruct (F n Hn) as [t [Ht <-]]. apply new_topic_fresh; assumption. }
  split; [exact Hnone|].
  destruct (by_subject_identifier_after_create_topic self_topic_map
              {| address := topic_name_psi |} W)
    as [type [db2 [Hrun [Hne Hin]]]].
  unfold create_name. cbn [store_db with_db]. rewrite Hrun. cbn [insert].
  eexists. eexists. split; [reflexivity|]. split.
  - unfold get_names. cbn [names with_db rows]. rewrite filter_app, Hnone.
    simpl. rewrite Nat.eqb_refl. reflexivity.
  - split; [reflexivity|]. split; [reflexivity|].
    split; [exact Hne|exact Hin].
Qed.

(** X17 on the store with the empty database and no names. *)
Lemma names_of_new_topic_witness :
  let s0 := {| store_db := empty_db; names := empty_table Name;
               name_scope := [] |} in
  wf (store_db s0) /\ names_fk s0 /\
  exists parent db1 name s2,
    create_topic ex_tm (store_db s0) = (Return parent, db1) /\
    create_name parent ex_tm "Name" None None (with_db db1 s0) =
      (Return name, s2) /\
    get_names parent None s2 = [name].
Proof.
  assert (F : names_fk {| store_db := empty_db; names := empty_table Name;
                          name_scope := [] |}) by (intros n []).
  split; [exact wf_empty|]. split; [exact F|].
  destruct (@names_of_new_topic ex_tm "Name"
              {| store_db := empty_db; names := empty_table Name;
                 name_scope := [] |} wf_empty F)
    as [parent [db1 [H1 [_ [name [s2 [H2 [H3 _]]]]]]]].
  exists parent, db1, name, s2. auto.
Defined.

(** ** One address per topic *)

Lemma owns_address_key (db : DB) (t t' : Topic) (r : string) :
  topic_id t = topic_id t' -> owns_address db t r -> owns_address db t' r.
Proof.
  unfold owns_address, owns_subject_identifier, owns_item_identifier,
    owns_subject_locator. intros <-. auto.
Qed.

Lemma single_address_bound (db db' : DB) (t : Topic) (reference : string) :
  (forall t' r, owns_address db' t' r ->
                owns_address db t' r \/
                (topic_id t' = topic_id t /\ r = reference)) ->
  (forall r, owns_address db t r -> r = reference) ->
  single_address db -> single_address db'.
Proof.
  intros Hnew Honly S t' r1 r2 O1 O2.
  apply Hnew in O1. apply Hnew in O2.
  destruct O1 as [O1|[Hid1 ->]], O2 as [O2|[Hid2 ->]].
  - exact (S t' r1 r2 O1 O2).
  - apply Honly. exact (@owns_address_key db t' t r1 Hid2 O1).
  - symmetry. apply Honly. exact (@owns_address_key db t' t r2 Hid1 O2).
  - reflexivity.
Qed.

Lemma single_bind_subject_identifier (t : Topic) (reference : string)
  (db : DB) :
  (forall r, owns_address db t r -> r = reference) ->
  single_address db ->
  single_address (bind_subject_identifier t reference db).
Proof.
  apply single_address_bound. intros t' r [O|[O|O]].
  - apply owns_si_bind in O. destruct O as [O|O]; [left; left; exact O|auto].
  - left. right. left. exact O.
  - left. right. right. exact O.
Qed.

Lemma single_bind_subject_locator (t : Topic) (reference : string) (db : DB) :
  (forall r, owns_address db t r -> r = reference) ->
  single_address db ->
  single_address (bind_subject_locator t reference db).
Proof.
  apply single_address_bound. intros t' r [O|[O|O]].
  - left. left. exact O.
  - left. right. left. exact O.
  - apply owns_sl_bind in O.
    destruct O as [O|O]; [left; right; right; exact O|auto].
Qed.

Lemma single_bind_item_identifier (self : TopicMap) (t : Topic)
  (reference : string) (db : DB) :
  integrity db ->
  (forall r, owns_address db t r -> r = reference) ->
  single_address db ->
  single_address (bind_item_identifier self t reference db).
Proof.
  intros I. apply single_address_bound. intros t' r [O|[O|O]].
  - left. left. exact O.
  - apply owns_ii_bind in O; [|exact I].
    destruct O as [O|O]; [left; right; left; exact O|auto].
  - left. right. right. exact O.
Qed.

Lemma new_topic_no_address (self : TopicMap) (db : DB) (r reference : string) :
  integrity db ->
  owns_address (add_topic self db) (new_topic self db) r -> r = reference.
Proof.
  intros I O. exfalso.
  destruct (new_topic_owns_nothing self r I) as [Nsi [Nii Nsl]].
  destruct O as [O|[O|O]]; auto.
Qed.

Lemma single_same_index (db db' : DB) :
  same_index db db' -> single_address db -> single_address db'.
Proof.
  destruct db, db'. unfold same_index. simpl.
  intros (-> & -> & -> & -> & ->) S. exact S.
Qed.

Lemma single_factories (self : TopicMap) (loc : option Locator) (db : DB) :
  wf db -> single_address db ->
  single_address (snd (create_topic_by_item_identifier self loc db)) /\
  single_address (snd (create_topic_by_subject_identifier self loc db)) /\
  single_address (snd (create_topic_by_subject_locator self loc db)).
Proof.
  intros W S. pose proof W as [I U].
  pose proof (integrity_add_topic self I) as I'.
  assert (S' : single_address (add_topic self db)) by exact S.
  destruct loc as [loc|]; [|repeat split; exact S].
  assert (Hown : forall t, owns_address db t (to_external_form loc) ->
                           forall r, owns_address db t r ->
                                     r = to_external_form loc).
  { intros t O r O'. exact (S t r _ O' O). }
  destruct (si_rows_cases self (to_external_form loc) W)
    as [Esi|[t1 [Esi [Ht1 Ho1]]]];
  destruct (ii_rows_cases self (to_external_form loc) W)
    as [Eii|[t2 [Eii [Ht2 Ho2]]]];
  destruct (sl_rows_cases self (to_external_form loc) W)
    as [Esl|[t3 [Esl [Ht3 Ho3]]]];
  (split; [|split]);
  first
    [ rewrite (by_item_identifier_found self loc db Eii)
    | rewrite (by_item_identifier_alias self loc I Eii Esi)
    | rewrite (by_item_identifier_new self loc I Eii Esi)
    | rewrite (by_subject_identifier_found self loc db Esi)
    | rewrite (by_subject_identifier_alias self loc I Esi Eii)
    | rewrite (by_subject_identifier_new self loc I Esi Eii)
    | rewrite (by_subject_locator_found self loc db Esl)
    | rewrite (by_subject_locator_new self loc I Esl) ];
  simpl;
  first
    [ exact S
    | apply single_bind_subject_identifier;
      [first [ intros r; apply new_topic_no_address; exact I
             | apply Hown; right; left; assumption ]
      | assumption ]
    | apply single_bind_item_identifier;
      [ first [exact I' | exact I]
      | first [ intros r; apply new_topic_no_address; exact I
              | apply Hown; left; assumption ]
      | assumption ]
    | apply single_bind_subject_locator;
      [ intros r; apply new_topic_no_address; exact I | assumption ] ].
Qed.

(** X18.  In every store the methods build from the empty one, all the
    identifiers of a topic, of whatever kind, are at one address: the
    factories bind a second identifier to a topic only at the address the
    topic already has, and nothing else binds one. *)
Theorem reachable_single_address (db : DB) :
  reachable db -> single_address db.
Proof.
  induction 1 as [|self db R S|self loc db R S|self loc db R S
                  |self loc db R S|self type scope db R S
                  |self type db R S|self type value scope datatype db R S
                  |self role_type player db R S].
  - intros t r1 r2 [[si [[] _]]|[[ii [[] _]]|[sl [[] _]]]].
  - exact S.
  - exact (proj1 (single_factories self loc
                    (proj1 (reachable_wf_coherent R)) S)).
  - exact (proj1 (proj2 (single_factories self loc
                           (proj1 (reachable_wf_coherent R)) S))).
  - exact (proj2 (proj2 (single_factories self loc
                           (proj1 (reachable_wf_coherent R)) S))).
  - exact (single_same_index
             (same_index_create_association self type scope db) S).
  - exact (single_same_index (same_index_add_type self type db) S).
  - exact (single_same_index
             (same_index_create_occurrence self type value scope datatype db)
             S).
  - exact (single_same_index
             (same_index_create_role self role_type player db) S).
Qed.

(** X18 on the store reached by one call of
    [create_topic_by_item_identifier] and one of
    [create_topic_by_subject_identifier] for the same locator: topic 1 has
    a subject identifier and an item identifier, both at that address. *)
Lemma reachable_single_address_witness :
  reachable
    (snd (create_topic_by_subject_identifier ex_tm (Some ex_loc) ex_db_ii)) /\
  single_address
    (snd (create_topic_by_subject_identifier ex_tm (Some ex_loc) ex_db_ii)).
Proof.
  assert (R : reachable
                (snd (create_topic_by_subject_identifier ex_tm (Some ex_loc)
                        ex_db_ii))).
  { apply reach_by_subject_identifier. unfold ex_db_ii.
    apply reach_by_item_identifier. apply reach_empty. }
  split; [exact R|]. exact (reachable_single_address R).
Defined.
